(** * fix_daemon_logs: the log-call rewriter of soba

    A shallow embedding of [fix_daemon_logs.py].  The script reads one file,
    splits it at line feeds, rewrites every line that the legacy logger-call
    regular expression matches ([convert_log_call]) and joins the lines again.

    - Python strings are lists of Unicode code points ([N]).
    - The regular expression is kept as a syntax tree ([pattern]) and run by a
      backtracking matcher with the priorities of Python's [re] module
      (greedy and lazy repetition, ordered alternation, capture groups).
    - The comma splitter is the [for] loop of the source as a fold of
      [split_step] over the characters; the field builder is its [while] loop
      with an explicit index.
    - A run ends in a value or in an error ([result]): indexing a list out
      of range raises, as in Python. *)

From Stdlib Require Import String Ascii List NArith ZArith Bool Lia.
Import ListNotations.

Local Open Scope N_scope.
Local Open Scope list_scope.

(** ** Strings *)

Definition char := N.
Definition str := list char.

(** An ASCII literal as a Python string. *)
Definition py (s : string) : str :=
  List.map N_of_ascii (list_ascii_of_string s).

Definition c_tab : char := 9.
Definition c_nl : char := 10.
Definition c_dq : char := 34.      (* the double quote *)
Definition c_sq : char := 39.      (* the single quote *)
Definition c_lparen : char := 40.
Definition c_rparen : char := 41.
Definition c_comma : char := 44.

(** [str.isspace] for one code point, which is also the class [\s] of a
    [str] pattern: the table of CPython's [_PyUnicode_IsWhitespace]. *)
Definition isspace (c : char) : bool :=
  ((9 <=? c) && (c <=? 13)) || ((28 <=? c) && (c <=? 32))
  || (c =? 133) || (c =? 160) || (c =? 5760)
  || ((8192 <=? c) && (c <=? 8202))
  || (c =? 8232) || (c =? 8233) || (c =? 8239) || (c =? 8287) || (c =? 12288).

Fixpoint dropwhile (p : char -> bool) (s : str) : str :=
  match s with
  | [] => []
  | c :: s' => if p c then dropwhile p s' else s
  end.

Definition lstrip (p : char -> bool) (s : str) : str := dropwhile p s.
Definition rstrip (p : char -> bool) (s : str) : str := rev (dropwhile p (rev s)).

(** [s.strip()] is [strip isspace s]; [s.strip(chars)] is [strip (in_set chars) s]. *)
Definition strip (p : char -> bool) (s : str) : str := rstrip p (lstrip p s).

Definition in_set (chars : str) (c : char) : bool := existsb (N.eqb c) chars.

(** [sep.join(items)] *)
Fixpoint join (sep : str) (items : list str) : str :=
  match items with
  | [] => []
  | [x] => x
  | x :: rest => x ++ sep ++ join sep rest
  end.

(** [s.split('\n')]: never empty, one more item than there are line feeds. *)
Fixpoint split_lines (s : str) : list str :=
  match s with
  | [] => [[]]
  | c :: s' =>
      if c =? c_nl then [] :: split_lines s'
      else match split_lines s' with
           | l :: ls => (c :: l) :: ls
           | [] => [[c]]
           end
  end.

(** ** Regular expressions, as far as the pattern of [fix_file] needs them *)

Inductive regex : Type :=
| Eps                                     (* the empty pattern *)
| Bol                                     (* ^ *)
| Eol                                     (* $ *)
| Lit (l : str)                           (* literal text *)
| Class (p : char -> bool)                (* one character of a class *)
| Seq (a b : regex)
| Alt (a b : regex)                       (* a|b, a tried first *)
| Star (greedy : bool) (p : char -> bool) (* p* and p*? *)
| Group (n : nat) (a : regex).            (* capture group number n *)

Definition Plus (greedy : bool) (p : char -> bool) : regex :=
  Seq (Class p) (Star greedy p).
Definition Opt (a : regex) : regex := Alt a Eps.

Declare Scope regex_scope.
Delimit Scope regex_scope with re.
Infix ">>" := Seq (at level 61, right associativity) : regex_scope.

Definition captures := nat -> option str.
Definition no_captures : captures := fun _ => None.
Definition set_group (n : nat) (v : str) (g : captures) : captures :=
  fun m => if Nat.eqb m n then Some v else g m.

Fixpoint strip_prefix (l s : str) : option str :=
  match l, s with
  | [], _ => Some s
  | x :: l', y :: s' => if x =? y then strip_prefix l' s' else None
  | _ :: _, [] => None
  end.

Section Matcher.
Context {A : Type}.

(** Repetition of a character class.  Greedy: take one more character first
    and come back to the continuation if that fails.  Lazy: the continuation
    first, one more character if it fails. *)
Fixpoint star (greedy : bool) (p : char -> bool) (pos : nat) (s : str)
         (k : nat -> str -> option A) : option A :=
  match s with
  | c :: s' =>
      if p c then
        if greedy then
          match star greedy p (S pos) s' k with
          | Some r => Some r
          | None => k pos s
          end
        else
          match k pos s with
          | Some r => Some r
          | None => star greedy p (S pos) s' k
          end
      else k pos s
  | [] => k pos s
  end.

(** [run r pos s g k]: match [r] at offset [pos], where [s] is the rest of
    the input, then go on with [k]; [None] is failure, and the caller
    backtracks. *)
Fixpoint run (r : regex) (pos : nat) (s : str) (g : captures)
         (k : nat -> str -> captures -> option A) : option A :=
  match r with
  | Eps => k pos s g
  | Bol => if Nat.eqb pos 0 then k pos s g else None
  | Eol =>
      match s with
      | [] => k pos s g
      | [c] => if c =? c_nl then k pos s g else None
      | _ => None
      end
  | Lit l =>
      match strip_prefix l s with
      | Some s' => k (pos + length l)%nat s' g
      | None => None
      end
  | Class p =>
      match s with
      | c :: s' => if p c then k (S pos) s' g else None
      | [] => None
      end
  | Seq a b => run a pos s g (fun pos' s' g' => run b pos' s' g' k)
  | Alt a b =>
      match run a pos s g k with
      | Some r => Some r
      | None => run b pos s g k
      end
  | Star greedy p => star greedy p pos s (fun pos' s' => k pos' s' g)
  | Group n a =>
      run a pos s g
          (fun pos' s' g' => k pos' s' (set_group n (firstn (pos' - pos) s) g'))
  end.
End Matcher.

(** ** The pattern of [fix_file]

    In the order of the source's pattern: start of string; group 1, greedy
    white space; the text [d.logger.]; group 2, one of Info, Debug, Error,
    Warn; an opening parenthesis and a double quote; group 3, one or more
    characters other than the double quote, greedy; a double quote; optionally
    a comma, greedy white space and group 4, one or more characters other
    than the line feed, lazy; a closing parenthesis; end of string. *)

Definition s_dlogger : str := Eval vm_compute in py "d.logger.".
Definition s_Info : str := Eval vm_compute in py "Info".
Definition s_Debug : str := Eval vm_compute in py "Debug".
Definition s_Error : str := Eval vm_compute in py "Error".
Definition s_Warn : str := Eval vm_compute in py "Warn".

Definition not_dq (c : char) : bool := negb (c =? c_dq).   (* [^Q] *)
Definition dot (c : char) : bool := negb (c =? c_nl).      (* . *)

(** Info|Debug|Error|Warn *)
Definition p_level : regex :=
  Alt (Lit s_Info) (Alt (Lit s_Debug) (Alt (Lit s_Error) (Lit s_Warn))).

(** The optional part: comma, white space, group 4. *)
Definition p_args : regex :=
  (Lit [c_comma] >> Star true isspace >> Group 4 (Plus false dot))%re.

(** The closing parenthesis and the end of the string. *)
Definition p_close : regex := (Lit [c_rparen] >> Eol)%re.

(** From the opening parenthesis on. *)
Definition p_call : regex :=
  (Lit [c_lparen] >> Lit [c_dq] >> Group 3 (Plus true not_dq) >> Lit [c_dq]
   >> Opt p_args >> p_close)%re.

Definition pattern : regex :=
  (Bol >> Group 1 (Star true isspace) >> Lit s_dlogger >> Group 2 p_level
   >> p_call)%re.

(** The match object: groups 1 to 3 take part in every match of [pattern],
    group 4 is [None] when the optional part did not. *)
Record Match : Type := mkMatch {
  group1 : str;
  group2 : str;
  group3 : str;
  group4 : option str
}.

Definition to_match (g : captures) : option Match :=
  match g 1%nat, g 2%nat, g 3%nat with
  | Some a, Some b, Some c => Some (mkMatch a b c (g 4%nat))
  | _, _, _ => None
  end.

(** [re.match(pattern, line)] *)
Definition re_match (line : str) : option Match :=
  match run pattern 0 line no_captures (fun _ _ g => Some g) with
  | Some g => to_match g
  | None => None
  end.

(** ** Errors

    What a run of the Python code can end in: a value, an [IndexError] from
    indexing a list out of range, or, in this model only, a loop that was not
    given enough steps. *)

Inductive result (A : Type) : Type :=
| Ok (a : A)
| IndexError
| OutOfFuel.
Arguments Ok {A} a.
Arguments IndexError {A}.
Arguments OutOfFuel {A}.

Definition bind {A B : Type} (x : result A) (f : A -> result B) : result B :=
  match x with
  | Ok a => f a
  | IndexError => IndexError
  | OutOfFuel => OutOfFuel
  end.

Notation "x <- e ;; k" := (bind e (fun x => k))
  (at level 62, e at next level, right associativity).

(** [xs[i]] *)
Definition getitem {A : Type} (xs : list A) (i : nat) : result A :=
  match nth_error xs i with
  | Some x => Ok x
  | None => IndexError
  end.

Definition nonempty {A : Type} (xs : list A) : bool :=
  match xs with
  | [] => false
  | _ :: _ => true
  end.

(** ** convert_log_call: the comma splitter *)

Record split_state : Type := mkSplit {
  parts : list str;
  current : str;
  paren_depth : Z;
  in_quotes : bool;
  quote_char : option char
}.

Definition split_init : split_state := mkSplit [] [] 0%Z false None.

Definition is_quote (c : char) : bool := (c =? c_dq) || (c =? c_sq).

Definition is_quote_char (q : option char) (c : char) : bool :=
  match q with
  | Some x => c =? x
  | None => false
  end.

(** One turn of [for char in args]. *)
Definition split_step (st : split_state) (c : char) : split_state :=
  let keep st' :=                       (* current += char *)
    mkSplit (parts st') (current st' ++ [c]) (paren_depth st')
            (in_quotes st') (quote_char st') in
  if is_quote c && negb (in_quotes st) then
    keep (mkSplit (parts st) (current st) (paren_depth st) true (Some c))
  else if is_quote_char (quote_char st) c && in_quotes st then
    keep (mkSplit (parts st) (current st) (paren_depth st) false None)
  else if negb (in_quotes st) then
    if c =? c_lparen then
      keep (mkSplit (parts st) (current st) (paren_depth st + 1)%Z
                    (in_quotes st) (quote_char st))
    else if c =? c_rparen then
      keep (mkSplit (parts st) (current st) (paren_depth st - 1)%Z
                    (in_quotes st) (quote_char st))
    else if (c =? c_comma) && (paren_depth st =? 0)%Z then
      (* parts.append(current.strip()); current = ""; continue *)
      mkSplit (parts st ++ [strip isspace (current st)]) [] (paren_depth st)
              (in_quotes st) (quote_char st)
    else keep st
  else keep st.

Definition split_scan (args : str) (st : split_state) : split_state :=
  fold_left split_step args st.

(** The parts after the loop and the last [if current.strip()]. *)
Definition split_finish (st : split_state) : list str :=
  if nonempty (strip isspace (current st))
  then parts st ++ [strip isspace (current st)]
  else parts st.

Definition split_args (args : str) : list str :=
  split_finish (split_scan args split_init).

(** ** convert_log_call: the field builder *)

Definition s_field_open : str :=
  Eval vm_compute in (py "logging.Field{Key: " ++ [c_dq]).
Definition s_field_mid : str :=
  Eval vm_compute in ([c_dq] ++ py ", Value: ").
Definition s_field_close : str := Eval vm_compute in py "}".

Definition strip_key (part : str) : str :=
  strip (in_set [c_sq]) (strip (in_set [c_dq]) part).

Definition render_field (key value : str) : str :=
  s_field_open ++ key ++ s_field_mid ++ value ++ s_field_close.

(** The [while i < len(parts)] loop; [fuel] bounds the number of turns. *)
Fixpoint fields_loop (fuel : nat) (ps : list str) (i : nat) (fields : list str)
  : result (list str) :=
  match fuel with
  | O => OutOfFuel
  | S fuel' =>
      if (i <? length ps)%nat then
        if (i + 1 <? length ps)%nat then
          p_key <- getitem ps i ;;
          let key := strip_key p_key in
          value <- getitem ps (i + 1) ;;
          fields_loop fuel' ps (i + 2) (fields ++ [render_field key value])
        else
          fields_loop fuel' ps (i + 1) fields
      else Ok fields
  end.

Definition build_fields (ps : list str) : result (list str) :=
  fields_loop (S (length ps)) ps 0 [].

(** ** convert_log_call *)

Definition s_ctx : str := Eval vm_compute in (py "(ctx, " ++ [c_dq]).
Definition s_comma_nl : str := Eval vm_compute in (py "," ++ [c_nl]).

Definition convert_log_call (m : Match) : result str :=
  let indent := group1 m in
  let level := group2 m in
  let message := group3 m in
  let args :=
    match group4 m with
    | Some a => if nonempty a then a else []
    | None => []
    end in
  fields <- (if nonempty args then build_fields (split_args args) else Ok []) ;;
  if nonempty fields then
    let fields_str :=
      s_comma_nl ++ indent ++ [c_tab]
      ++ join (s_comma_nl ++ indent ++ [c_tab]) fields
      ++ s_comma_nl ++ indent in
    Ok (indent ++ s_dlogger ++ level ++ s_ctx ++ message ++ [c_dq]
        ++ fields_str ++ [c_rparen])
  else
    Ok (indent ++ s_dlogger ++ level ++ s_ctx ++ message ++ [c_dq] ++ [c_rparen]).

(** ** fix_file *)

(** The body of [for line in lines]. *)
Definition fix_line (line : str) : result str :=
  match re_match line with
  | Some m => convert_log_call m
  | None => Ok line
  end.

Fixpoint fix_lines (lines : list str) (new_lines : list str) : result (list str) :=
  match lines with
  | [] => Ok new_lines
  | line :: rest =>
      l <- fix_line line ;;
      fix_lines rest (new_lines ++ [l])
  end.

(** [fix_file] as a function from the text read to the text written. *)
Definition fix_file (content : str) : result str :=
  let lines := split_lines content in
  new_lines <- fix_lines lines [] ;;
  Ok (join [c_nl] new_lines).

(** ** Definitions used in the statements and proofs *)

(** What it means for [r] to consume [s1] in front of [s2] at offset [pos],
    turning the captures [g] into [g']. *)
Fixpoint matches (r : regex) (pos : nat) (s1 s2 : str) (g g' : captures) : Prop :=
  match r with
  | Eps => s1 = [] /\ g' = g
  | Bol => pos = 0%nat /\ s1 = [] /\ g' = g
  | Eol => s1 = [] /\ (s2 = [] \/ s2 = [c_nl]) /\ g' = g
  | Lit l => s1 = l /\ g' = g
  | Class p => exists c, s1 = [c] /\ p c = true /\ g' = g
  | Seq a b =>
      exists u v gm, s1 = u ++ v /\ matches a pos u (v ++ s2) g gm
                     /\ matches b (pos + length u) v s2 gm g'
  | Alt a b => matches a pos s1 s2 g g' \/ matches b pos s1 s2 g g'
  | Star _ p => forallb p s1 = true /\ g' = g
  | Group n a => exists gm, matches a pos s1 s2 g gm /\ g' = set_group n s1 gm
  end.

(** The levels the pattern accepts. *)
Definition levels : list str := [s_Info; s_Debug; s_Error; s_Warn].

(** The shape of a legacy call, read off the pattern: white space, the
    receiver and the level, the quoted message, optionally a comma, white
    space and the raw arguments, the closing parenthesis, and nothing after it
    but at most one line feed.  The groups of [m] are the pieces. *)
Definition legacy_call (line : str) (m : Match) : Prop :=
  exists tail eol,
    line = group1 m ++ s_dlogger ++ group2 m ++ [c_lparen; c_dq]
           ++ group3 m ++ [c_dq] ++ tail ++ [c_rparen] ++ eol
    /\ forallb isspace (group1 m) = true
    /\ In (group2 m) levels
    /\ group3 m <> [] /\ forallb not_dq (group3 m) = true
    /\ (eol = [] \/ eol = [c_nl])
    /\ match group4 m with
       | None => tail = []
       | Some a =>
           exists ws, tail = c_comma :: ws ++ a /\ forallb isspace ws = true
                      /\ a <> [] /\ forallb dot a = true
       end.

(** The fields of a list of parts, two at a time. *)
Fixpoint pair_fields (ps : list str) : list str :=
  match ps with
  | key :: value :: rest => render_field (strip_key key) value :: pair_fields rest
  | _ => []
  end.

(** The raw arguments [convert_log_call] works on. *)
Definition args_of (m : Match) : str :=
  match group4 m with
  | Some a => a
  | None => []
  end.

(** The text of the new call, for the fields already rendered. *)
Definition call_text (indent level message : str) (fields : list str) : str :=
  match fields with
  | [] => indent ++ s_dlogger ++ level ++ s_ctx ++ message ++ [c_dq; c_rparen]
  | _ :: _ =>
      indent ++ s_dlogger ++ level ++ s_ctx ++ message ++ [c_dq; c_comma; c_nl]
      ++ concat (map (fun f => indent ++ [c_tab] ++ f ++ [c_comma; c_nl]) fields)
      ++ indent ++ [c_rparen]
  end.


(** The characters of the parts come from the scanned text. *)
Definition from_chars (X : char -> Prop) (st : split_state) : Prop :=
  (forall p, In p (parts st) -> forall c, In c p -> X c)
  /\ (forall c, In c (current st) -> X c).

(** What [fix_line] writes for a line. *)
Definition new_line (line : str) : str :=
  match re_match line with
  | Some m => call_text (group1 m) (group2 m) (group3 m)
                        (pair_fields (split_args (args_of m)))
  | None => line
  end.

Definition field_line (indent f : str) : str := indent ++ [c_tab] ++ f ++ [c_comma].

(** The key of a field as the specification words it: quote characters of
    either kind stripped from both ends of the part. *)
Definition strip_quotes_spec (part : str) : str :=
  strip (in_set [c_dq; c_sq]) part.

(** Concrete texts used in examples. *)
Definition quoted (s : string) : str := [c_dq] ++ py s ++ [c_dq].

Definition line_error : str :=
  [c_tab] ++ py "d.logger.Error(" ++ quoted "failed" ++ py ", "
  ++ quoted "err" ++ py ", err)".


Definition content_example : str :=
  py "func f() {" ++ [c_nl] ++ line_error ++ [c_nl] ++ py "    "
  ++ s_dlogger ++ s_Info ++ [c_lparen] ++ quoted "done" ++ [c_rparen]
  ++ [c_nl] ++ py "}".

Definition content_example_out : str :=
  Eval vm_compute in
    match fix_file content_example with
    | Ok out => out
    | _ => []
    end.

(** The characters the splitter can drop: white space and commas. *)
Definition kept (c : char) : bool := negb (isspace c) && negb (c =? c_comma).

(** A character that the splitter treats like any other: no white space,
    quote, parenthesis or comma. *)
Definition plain_char (c : char) : bool :=
  negb (isspace c || is_quote c || (c =? c_lparen) || (c =? c_rparen)
        || (c =? c_comma)).

(** An argument made of such characters only, and not empty. *)
Definition plain_token (t : str) : bool := nonempty t && forallb plain_char t.

(** A character that is neither a quote nor a parenthesis. *)
Definition flat_char (c : char) : bool :=
  negb (is_quote c || (c =? c_lparen) || (c =? c_rparen)).

Definition s_comma_space : str := Eval vm_compute in py ", ".

Local Open Scope regex_scope.

(** * Proofs *)

Lemma strip_prefix_app : forall l s s', strip_prefix l s = Some s' -> s = l ++ s'.
Proof.
  induction l as [|x l IH]; intros s s' H; simpl in *.
  - now inversion H.
  - destruct s as [|y s]; [discriminate|].
    destruct (N.eqb_spec x y); [|discriminate].
    subst. f_equal. now apply IH.
Qed.

Lemma strip_prefix_here : forall l s, strip_prefix l (l ++ s) = Some s.
Proof.
  induction l as [|x l IH]; intros s; simpl; [reflexivity|].
  now rewrite N.eqb_refl.
Qed.

Section MatcherFacts.
Context {A : Type}.

Lemma star_sound : forall greedy p s pos (k : nat -> str -> option A) res,
    star greedy p pos s k = Some res ->
    exists s1 s2, s = s1 ++ s2 /\ forallb p s1 = true
                  /\ k (pos + length s1)%nat s2 = Some res.
Proof.
  intros greedy p s. induction s as [|c s IH]; intros pos k res H; simpl in H.
  - exists [], []. simpl. rewrite Nat.add_0_r. auto.
  - destruct (p c) eqn:Hp.
    + assert (Hmore : star greedy p (S pos) s k = Some res ->
                      exists s1 s2, c :: s = s1 ++ s2 /\ forallb p s1 = true
                                    /\ k (pos + length s1)%nat s2 = Some res).
      { intros H'. destruct (IH _ _ _ H') as (s1 & s2 & -> & Hall & Hk).
        exists (c :: s1), s2. simpl. rewrite Hp, Hall.
        replace (pos + S (length s1))%nat with (S pos + length s1)%nat by lia.
        auto. }
      assert (Hstop : k pos (c :: s) = Some res ->
                      exists s1 s2, c :: s = s1 ++ s2 /\ forallb p s1 = true
                                    /\ k (pos + length s1)%nat s2 = Some res).
      { intros H'. exists [], (c :: s). simpl. rewrite Nat.add_0_r. auto. }
      destruct greedy.
      * destruct (star true p (S pos) s k) eqn:E.
        -- inversion H; subst. now apply Hmore.
        -- now apply Hstop.
      * destruct (k pos (c :: s)) eqn:E.
        -- inversion H; subst. now apply Hstop.
        -- now apply Hmore.
    + exists [], (c :: s). simpl. rewrite Nat.add_0_r. auto.
Qed.

Lemma run_sound : forall r pos s g (k : nat -> str -> captures -> option A) res,
    run r pos s g k = Some res ->
    exists s1 s2 g', s = s1 ++ s2 /\ matches r pos s1 s2 g g'
                     /\ k (pos + length s1)%nat s2 g' = Some res.
Proof.
  induction r as [| | |l|p|a IHa b IHb|a IHa b IHb|greedy p|n a IHa];
    intros pos s g k res H; simpl in H.
  - exists [], s, g. simpl. rewrite Nat.add_0_r. auto.
  - destruct (Nat.eqb_spec pos 0); [|discriminate].
    exists [], s, g. simpl. rewrite Nat.add_0_r. auto.
  - destruct s as [|c [|c' s]]; try discriminate.
    + exists [], [], g. simpl. rewrite Nat.add_0_r. intuition auto.
    + destruct (N.eqb_spec c c_nl); [|discriminate]. subst c.
      exists [], [c_nl], g. simpl. rewrite Nat.add_0_r. intuition auto.
  - destruct (strip_prefix l s) as [s'|] eqn:E; [|discriminate].
    apply strip_prefix_app in E. exists l, s', g. simpl. auto.
  - destruct s as [|c s]; [discriminate|].
    destruct (p c) eqn:Hp; [|discriminate].
    exists [c], s, g. simpl. replace (pos + 1)%nat with (S pos) by lia.
    split; [reflexivity|]. split; [|assumption]. exists c. auto.
  - apply IHa in H. destruct H as (u & rest & gm & -> & Ha & H).
    apply IHb in H. destruct H as (v & s2 & g' & -> & Hb & H).
    exists (u ++ v), s2, g'. rewrite length_app, Nat.add_assoc, <- app_assoc.
    split; [reflexivity|]. split; [|assumption].
    simpl. exists u, v, gm. auto.
  - destruct (run a pos s g k) eqn:E.
    + inversion H; subst. apply IHa in E.
      destruct E as (s1 & s2 & g' & -> & Hm & Hk).
      exists s1, s2, g'. simpl. auto.
    + apply IHb in H. destruct H as (s1 & s2 & g' & -> & Hm & Hk).
      exists s1, s2, g'. simpl. auto.
  - apply star_sound in H. destruct H as (s1 & s2 & -> & Hall & Hk).
    exists s1, s2, g. simpl. auto.
  - apply IHa in H. destruct H as (s1 & s2 & gm & -> & Hm & Hk).
    replace (pos + length s1 - pos)%nat with (length s1) in Hk by lia.
    rewrite firstn_app, Nat.sub_diag, firstn_all in Hk. simpl in Hk.
    rewrite app_nil_r in Hk.
    exists s1, s2, (set_group n s1 gm). split; [reflexivity|].
    split; [|assumption]. simpl. exists gm. auto.
Qed.
End MatcherFacts.

Ltac break_ex :=
  repeat match goal with
         | H : exists _, _ |- _ => destruct H
         | H : _ /\ _ |- _ => destruct H
         end; subst.

Lemma re_match_sound : forall line m, re_match line = Some m -> legacy_call line m.
Proof.
  intros line m H. unfold re_match in H.
  destruct (run pattern 0 line no_captures (fun _ _ g => Some g)) as [g|] eqn:E;
    [|discriminate].
  apply run_sound in E. destruct E as (s1 & s2 & g' & -> & Hm & Hk).
  inversion Hk; subst g'; clear Hk.
  unfold pattern, p_call, p_close, p_args, p_level, Plus, Opt in Hm.
  cbn [matches] in Hm. break_ex.
  assert (Hmsg : forall c message,
             not_dq c = true -> forallb not_dq message = true ->
             forallb not_dq (c :: message) = true).
  { intros c message Hc Hq. simpl. now rewrite Hc, Hq. }
  match goal with
  | Hl : (?x = s_Info /\ ?gx = ?v) \/ _ |- _ =>
      assert (Hlev : In x levels /\ gx = v)
        by (unfold levels; simpl; intuition auto);
      clear Hl; destruct Hlev as [Hlev ->]
  end.
  match goal with
  | Ho : _ \/ _ /\ _ |- _ => destruct Ho as [Ho|[-> ->]]
  end.
  - break_ex. cbn in H. inversion H; subst m; clear H.
    match goal with
    | Hws : forallb isspace ?ws = true, Hc : dot ?c = true,
      Ha : forallb dot ?a = true |- _ =>
        exists (c_comma :: ws ++ c :: a), s2; cbn [group1 group2 group3 group4];
        split; [repeat (rewrite <- app_assoc; simpl); reflexivity|];
        repeat split; auto; try discriminate;
        exists ws; repeat split; auto; try discriminate;
        simpl; now rewrite Hc, Ha
    end.
  - cbn in H. inversion H; subst m; clear H.
    exists [], s2; cbn [group1 group2 group3 group4].
    split; [repeat (rewrite <- app_assoc; simpl); reflexivity|].
    repeat split; auto; discriminate.
Qed.

Section StarPriority.
Context {A : Type}.
Variable p : char -> bool.
Variable k : nat -> str -> option A.

Lemma star_stop : forall greedy pos s,
    match s with [] => True | c :: _ => p c = false end ->
    star greedy p pos s k = k pos s.
Proof.
  intros greedy pos [|c s] H; simpl; [reflexivity|]. now rewrite H.
Qed.

(** A greedy repetition keeps all of [w] when the rest of the pattern
    accepts what follows. *)
Lemma star_greedy_app : forall w s pos r,
    forallb p w = true ->
    star true p (pos + length w) s k = Some r ->
    star true p pos (w ++ s) k = Some r.
Proof.
  induction w as [|c w IH]; intros s pos r Hall H; simpl in *.
  - now rewrite Nat.add_0_r in H.
  - apply andb_prop in Hall. destruct Hall as [Hc Hall]. rewrite Hc.
    rewrite (IH s (S pos) r Hall); [reflexivity|].
    now replace (S pos + length w)%nat with (pos + S (length w))%nat by lia.
Qed.

(** It gives one character back when the longer attempt fails. *)
Lemma star_greedy_back : forall w c s pos r,
    forallb p w = true -> p c = true ->
    star true p (S (pos + length w)) s k = None ->
    k (pos + length w)%nat (c :: s) = Some r ->
    star true p pos (w ++ c :: s) k = Some r.
Proof.
  induction w as [|x w IH]; intros c s pos r Hall Hc Hlong Hk; simpl in *.
  - rewrite Nat.add_0_r in *. now rewrite Hc, Hlong.
  - apply andb_prop in Hall. destruct Hall as [Hx Hall]. rewrite Hx.
    rewrite (IH c s (S pos) r Hall Hc); [reflexivity| |].
    + now replace (S pos + length w)%nat with (pos + S (length w))%nat by lia.
    + now replace (S pos + length w)%nat with (pos + S (length w))%nat by lia.
Qed.

(** A lazy repetition takes [w] when the rest of the pattern refuses every
    shorter attempt. *)
Lemma star_lazy_app : forall w s pos,
    forallb p w = true ->
    (forall w1 w2, w = w1 ++ w2 -> w2 <> [] ->
                   k (pos + length w1)%nat (w2 ++ s) = None) ->
    star false p pos (w ++ s) k = star false p (pos + length w) s k.
Proof.
  induction w as [|c w IH]; intros s pos Hall Hshort; simpl in *.
  - now rewrite Nat.add_0_r.
  - apply andb_prop in Hall. destruct Hall as [Hc Hall]. rewrite Hc.
    specialize (Hshort [] (c :: w) eq_refl) as H0. simpl in H0.
    rewrite Nat.add_0_r in H0. rewrite H0 by discriminate.
    rewrite IH; auto.
    + f_equal. lia.
    + intros w1 w2 -> Hne.
      specialize (Hshort (c :: w1) w2 eq_refl Hne). simpl in Hshort.
      now replace (S pos + length w1)%nat with (pos + S (length w1))%nat by lia.
Qed.

Lemma star_lazy_here : forall s pos r,
    k pos s = Some r -> star false p pos s k = Some r.
Proof.
  intros [|c s] pos r H; simpl; [assumption|].
  destruct (p c); [now rewrite H|assumption].
Qed.
End StarPriority.

Lemma firstn_consumed : forall (w s : str) n, n = length w -> firstn n (w ++ s) = w.
Proof.
  intros w s n ->. rewrite firstn_app, Nat.sub_diag, firstn_all. simpl.
  now rewrite app_nil_r.
Qed.

Section PatternPieces.
Context {A : Type}.
Variable k : nat -> str -> captures -> option A.

Lemma run_lit : forall l s pos g,
    run (Lit l) pos (l ++ s) g k = k (pos + length l)%nat s g.
Proof. intros. simpl. now rewrite strip_prefix_here. Qed.

Lemma run_close : forall pos g,
    run p_close pos [c_rparen] g k = k (pos + 1)%nat [] g.
Proof. reflexivity. Qed.

Lemma run_close_more : forall pos g c s,
    run p_close pos (c :: s ++ [c_rparen]) g k = None.
Proof.
  intros pos g c s. unfold p_close. cbn [run strip_prefix].
  destruct (c_rparen =? c); [|reflexivity].
  destruct s as [|x [|y s]]; reflexivity.
Qed.

(** A call without arguments: the optional part fails on the parenthesis. *)
Lemma run_opt_noargs : forall pos g,
    run (Opt p_args >> p_close) pos [c_rparen] g k = k (pos + 1)%nat [] g.
Proof. reflexivity. Qed.

(** A call with arguments that start with a character that is not white
    space: group 4 is everything up to the last parenthesis. *)
Lemma run_opt_args : forall pos g ws c a r,
    forallb isspace ws = true -> isspace c = false ->
    forallb dot (c :: a) = true ->
    k (pos + 1 + length ws + length (c :: a) + 1)%nat [] (set_group 4 (c :: a) g)
    = Some r ->
    run (Opt p_args >> p_close) pos (c_comma :: ws ++ (c :: a) ++ [c_rparen]) g k
    = Some r.
Proof.
  intros pos g ws c a r Hws Hc Ha Hk.
  simpl in Ha. apply andb_prop in Ha. destruct Ha as [Hdc Ha].
  change (run (Opt p_args >> p_close) pos
              (c_comma :: ws ++ (c :: a) ++ [c_rparen]) g k)
    with (match star true isspace (pos + 1) (ws ++ (c :: a) ++ [c_rparen])
                  (fun pos1 s1 =>
                     run (Group 4 (Plus false dot)) pos1 s1 g
                         (fun pos2 s2 g2 => run p_close pos2 s2 g2 k))
          with
          | Some r => Some r
          | None => run p_close pos (c_comma :: ws ++ (c :: a) ++ [c_rparen]) g k
          end).
  erewrite star_greedy_app; [reflexivity|assumption|].
  rewrite star_stop by (simpl; assumption).
  cbn [run Plus app]. rewrite Hdc.
  rewrite star_lazy_app; [|assumption|].
  - apply star_lazy_here. rewrite run_close.
    rewrite (firstn_consumed (c :: a) [c_rparen]) by (cbn [length]; lia).
    rewrite <- Hk. f_equal. simpl. lia.
  - intros w1 w2 -> Hne. destruct w2 as [|x w2]; [congruence|].
    apply run_close_more.
Qed.
End PatternPieces.

Section PatternHead.
Context {A : Type}.

Lemma run_level : forall (k : nat -> str -> captures -> option A)
                         level pos rest g r,
    In level levels ->
    k (pos + length level)%nat rest g = Some r ->
    run p_level pos (level ++ rest) g k = Some r.
Proof.
  intros k level pos rest g r Hl Hk. unfold levels in Hl. simpl in Hl.
  destruct Hl as [<-|[<-|[<-|[<-|[]]]]];
    unfold p_level; cbn [run]; simpl; simpl in Hk; now rewrite Hk.
Qed.

Lemma run_call : forall (k : nat -> str -> captures -> option A)
                        pos g message rest r,
    message <> [] -> forallb not_dq message = true ->
    run (Opt p_args >> p_close) (pos + 2 + length message + 1)%nat rest
        (set_group 3 message g) k = Some r ->
    run p_call pos ([c_lparen; c_dq] ++ message ++ [c_dq] ++ rest) g k = Some r.
Proof.
  intros k pos g message rest r Hne Hq Hk.
  destruct message as [|c message]; [congruence|]. simpl in Hq.
  apply andb_prop in Hq. destruct Hq as [Hc Hq].
  unfold p_call, Plus. cbn [run app strip_prefix]. rewrite !N.eqb_refl.
  rewrite Hc.
  apply star_greedy_app; [assumption|].
  rewrite star_stop by reflexivity.
  cbn [app strip_prefix]. rewrite N.eqb_refl.
  rewrite (firstn_consumed (c :: message) (c_dq :: rest))
    by (cbn [length]; lia).
  cbn [run] in Hk. rewrite <- Hk. f_equal. cbn [length]. lia.
Qed.

Lemma run_pattern : forall (k : nat -> str -> captures -> option A)
                           indent level rest r,
    forallb isspace indent = true -> In level levels ->
    run p_call (length indent + length s_dlogger + length level)%nat rest
        (set_group 2 level (set_group 1 indent no_captures)) k = Some r ->
    run pattern 0 (indent ++ s_dlogger ++ level ++ rest) no_captures k = Some r.
Proof.
  intros k indent level rest r Hi Hl Hk.
  unfold pattern. cbn [run]. simpl Nat.eqb. cbv iota.
  apply star_greedy_app; [assumption|].
  rewrite star_stop by reflexivity.
  rewrite strip_prefix_here.
  apply run_level; [assumption|].
  rewrite (firstn_consumed level rest) by lia.
  rewrite (firstn_consumed indent) by lia.
  exact Hk.
Qed.
End PatternHead.

Lemma re_match_noargs : forall indent level message,
    forallb isspace indent = true -> In level levels ->
    message <> [] -> forallb not_dq message = true ->
    re_match (indent ++ s_dlogger ++ level ++ [c_lparen; c_dq] ++ message
              ++ [c_dq; c_rparen])
    = Some (mkMatch indent level message None).
Proof.
  intros indent level message Hi Hl Hm Hq.
  unfold re_match.
  erewrite run_pattern; [|assumption|assumption|].
  2:{ apply run_call with (rest := [c_rparen]); [assumption|assumption|].
      rewrite run_opt_noargs. reflexivity. }
  reflexivity.
Qed.

Lemma re_match_args : forall indent level message ws c a,
    forallb isspace indent = true -> In level levels ->
    message <> [] -> forallb not_dq message = true ->
    forallb isspace ws = true -> isspace c = false ->
    forallb dot (c :: a) = true ->
    re_match (indent ++ s_dlogger ++ level ++ [c_lparen; c_dq] ++ message
              ++ [c_dq] ++ c_comma :: ws ++ (c :: a) ++ [c_rparen])
    = Some (mkMatch indent level message (Some (c :: a))).
Proof.
  intros indent level message ws c a Hi Hl Hm Hq Hws Hc Ha.
  unfold re_match.
  erewrite run_pattern; [|assumption|assumption|].
  2:{ apply run_call; [assumption|assumption|].
      apply run_opt_args; [assumption|assumption|assumption|]. reflexivity. }
  reflexivity.
Qed.

(** *** Lines *)

Lemma split_lines_nonempty : forall s, split_lines s <> [].
Proof.
  destruct s as [|c s]; simpl; [discriminate|].
  destruct (c =? c_nl); [discriminate|].
  destruct (split_lines s); discriminate.
Qed.

Lemma split_lines_no_nl : forall s l, In l (split_lines s) -> ~ In c_nl l.
Proof.
  induction s as [|c s IH]; intros l H; simpl in H.
  - destruct H as [<-|[]]. auto.
  - destruct (N.eqb_spec c c_nl) as [->|Hc].
    + destruct H as [<-|H]; [auto|]. now apply IH.
    + destruct (split_lines s) as [|l0 ls] eqn:E.
      * destruct H as [<-|[]]. intros [H|[]]. congruence.
      * destruct H as [<-|H].
        -- intros [H|H]; [congruence|]. apply (IH l0); [now left|assumption].
        -- apply IH. now right.
Qed.

Lemma split_lines_one : forall l, ~ In c_nl l -> split_lines l = [l].
Proof.
  induction l as [|c l IH]; intros H; simpl; [reflexivity|].
  destruct (N.eqb_spec c c_nl) as [->|Hc]; [exfalso; apply H; now left|].
  rewrite IH; [reflexivity|]. intros Hin. apply H. now right.
Qed.

Lemma split_lines_app : forall l s,
    ~ In c_nl l -> split_lines (l ++ c_nl :: s) = l :: split_lines s.
Proof.
  induction l as [|c l IH]; intros s H; simpl.
  - reflexivity.
  - destruct (N.eqb_spec c c_nl) as [->|Hc]; [exfalso; apply H; now left|].
    rewrite IH; [reflexivity|]. intros Hin. apply H. now right.
Qed.

Lemma join_cons : forall sep x xs,
    xs <> [] -> join sep (x :: xs) = x ++ sep ++ join sep xs.
Proof. intros sep x [|y xs] H; [congruence|reflexivity]. Qed.

Lemma join_split_lines : forall s, join [c_nl] (split_lines s) = s.
Proof.
  induction s as [|c s IH]; simpl; [reflexivity|].
  destruct (N.eqb_spec c c_nl) as [->|Hc].
  - rewrite join_cons by apply split_lines_nonempty. simpl. now rewrite IH.
  - pose proof (split_lines_nonempty s) as Hne.
    destruct (split_lines s) as [|l ls]; [congruence|].
    destruct ls as [|l' ls].
    + simpl in *. now rewrite IH.
    + rewrite join_cons in IH by discriminate.
      rewrite join_cons by discriminate. rewrite <- IH. reflexivity.
Qed.

Lemma split_lines_cat : forall x s,
    split_lines (x ++ c_nl :: s) = split_lines x ++ split_lines s.
Proof.
  induction x as [|c x IHx]; intros s; simpl; [reflexivity|].
  destruct (c =? c_nl).
  - simpl. now rewrite IHx.
  - rewrite IHx.
    pose proof (split_lines_nonempty x) as Hne.
    destruct (split_lines x); [congruence|reflexivity].
Qed.

Lemma split_lines_join : forall xs,
    xs <> [] -> split_lines (join [c_nl] xs) = concat (map split_lines xs).
Proof.
  induction xs as [|x xs IH]; intros Hne; [congruence|].
  destruct xs as [|y xs].
  - simpl. now rewrite app_nil_r.
  - rewrite join_cons by discriminate.
    change (concat (map split_lines (x :: y :: xs)))
      with (split_lines x ++ concat (map split_lines (y :: xs))).
    rewrite <- IH by discriminate.
    apply split_lines_cat.
Qed.

(** *** Stripping *)

Lemma dropwhile_incl : forall p s c, In c (dropwhile p s) -> In c s.
Proof.
  induction s as [|x s IH]; intros c H; simpl in *; [assumption|].
  destruct (p x); [right; now apply IH|assumption].
Qed.

Lemma strip_incl : forall p s c, In c (strip p s) -> In c s.
Proof.
  intros p s c H. unfold strip, rstrip, lstrip in H.
  apply in_rev in H. apply dropwhile_incl in H. apply in_rev in H.
  now apply dropwhile_incl in H.
Qed.

Lemma dropwhile_id : forall p s,
    match s with [] => True | c :: _ => p c = false end -> dropwhile p s = s.
Proof. intros p [|c s] H; simpl; [reflexivity|]. now rewrite H. Qed.

(** A string that neither starts nor ends with a character of the class is
    left alone. *)
Lemma strip_id : forall p s,
    match s with [] => True | c :: _ => p c = false end ->
    match rev s with [] => True | c :: _ => p c = false end ->
    strip p s = s.
Proof.
  intros p s H1 H2. unfold strip, rstrip, lstrip.
  rewrite (dropwhile_id p s H1), (dropwhile_id p (rev s) H2).
  apply rev_involutive.
Qed.

(** *** The field builder *)

Lemma skipn_nth_error : forall (A : Type) (xs : list A) i x,
    nth_error xs i = Some x -> skipn i xs = x :: skipn (S i) xs.
Proof.
  induction xs as [|y xs IH]; intros [|i] x H; simpl in *; try discriminate.
  - now inversion H.
  - now apply IH.
Qed.

Lemma fields_loop_ok : forall ps fuel i fields,
    (length ps - i < fuel)%nat ->
    fields_loop fuel ps i fields = Ok (fields ++ pair_fields (skipn i ps)).
Proof.
  intros ps fuel. induction fuel as [|fuel IH]; intros i fields Hf; [lia|].
  cbn [fields_loop].
  destruct (Nat.ltb_spec i (length ps)) as [Hi|Hi].
  - destruct (nth_error ps i) as [key|] eqn:Ek;
      [|apply nth_error_None in Ek; lia].
    destruct (Nat.ltb_spec (i + 1) (length ps)) as [Hv|Hv].
    + destruct (nth_error ps (i + 1)) as [value|] eqn:Ev;
        [|apply nth_error_None in Ev; lia].
      unfold getitem. rewrite Ek, Ev. cbn [bind].
      rewrite IH by lia.
      rewrite (skipn_nth_error _ ps i key Ek).
      replace (S i) with (i + 1)%nat by lia.
      rewrite (skipn_nth_error _ ps (i + 1) value Ev).
      replace (S (i + 1)) with (i + 2)%nat by lia.
      cbn [pair_fields]. now rewrite <- app_assoc.
    + rewrite IH by lia.
      rewrite (skipn_nth_error _ ps i key Ek).
      rewrite (skipn_all2 ps (n := S i)) by lia.
      replace (i + 1)%nat with (S i) by lia.
      rewrite (skipn_all2 ps (n := S i)) by lia. reflexivity.
  - rewrite skipn_all2 by lia. simpl. now rewrite app_nil_r.
Qed.

Lemma build_fields_ok : forall ps, build_fields ps = Ok (pair_fields ps).
Proof.
  intros ps. unfold build_fields. rewrite fields_loop_ok by lia. reflexivity.
Qed.

Lemma pairs_ind : forall (P : list str -> Prop),
    P [] -> (forall x, P [x]) ->
    (forall key value ps, P ps -> P (key :: value :: ps)) ->
    forall ps, P ps.
Proof.
  intros P H0 H1 H2 ps.
  assert (H : P ps /\ forall x, P (x :: ps)).
  { induction ps as [|y ps [IH1 IH2]]; split; auto. }
  apply H.
Qed.

Lemma pair_fields_odd : forall ps p,
    Nat.even (length ps) = true -> pair_fields (ps ++ [p]) = pair_fields ps.
Proof.
  intros ps p. induction ps as [|x|key value ps IH] using pairs_ind; intros He.
  - reflexivity.
  - discriminate.
  - cbn [app pair_fields]. f_equal. apply IH. exact He.
Qed.

Lemma pair_fields_length : forall ps,
    length (pair_fields ps) = Nat.div2 (length ps).
Proof.
  intros ps. induction ps as [|x|key value ps IH] using pairs_ind;
    try reflexivity.
  cbn [pair_fields length Nat.div2]. now f_equal.
Qed.

Lemma pair_fields_nth : forall ps i key value,
    nth_error ps (2 * i) = Some key -> nth_error ps (2 * i + 1) = Some value ->
    nth_error (pair_fields ps) i = Some (render_field (strip_key key) value).
Proof.
  intros ps i. revert ps. induction i as [|i IH]; intros ps key value Hk Hv.
  - destruct ps as [|k [|v ps]]; simpl in *; try discriminate.
    now inversion Hk; inversion Hv.
  - destruct ps as [|k [|v ps]].
    + discriminate.
    + replace (2 * S i)%nat with (S (S (2 * i))) in Hk by lia. simpl in Hk.
      destruct (2 * i)%nat; discriminate.
    + replace (2 * S i)%nat with (S (S (2 * i))) in Hk by lia.
      replace (2 * S i + 1)%nat with (S (S (2 * i + 1))) in Hv by lia.
      cbn [nth_error pair_fields] in *. now apply IH.
Qed.

(** *** The splitter *)

Lemma split_scan_app : forall a b st,
    split_scan (a ++ b) st = split_scan b (split_scan a st).
Proof. intros. unfold split_scan. apply fold_left_app. Qed.

Lemma split_scan_cons : forall c a st,
    split_scan (c :: a) st = split_scan a (split_step st c).
Proof. reflexivity. Qed.

(** Inside a quoted literal every character up to the closing quote is kept. *)
Lemma scan_quoted : forall w st q,
    in_quotes st = true -> quote_char st = Some q -> ~ In q w ->
    split_scan w st
    = mkSplit (parts st) (current st ++ w) (paren_depth st) true (Some q).
Proof.
  induction w as [|c w IH]; intros st q Hin Hq Hw.
  - simpl. rewrite app_nil_r. destruct st; simpl in *; now subst.
  - rewrite split_scan_cons.
    assert (Hc : (c =? q) = false).
    { apply N.eqb_neq. intros ->. apply Hw. now left. }
    assert (Hstep : split_step st c
                    = mkSplit (parts st) (current st ++ [c]) (paren_depth st)
                              true (Some q)).
    { unfold split_step. rewrite Hin, Hq. simpl. rewrite Hc.
      rewrite andb_false_r. reflexivity. }
    rewrite Hstep. rewrite (IH _ q); simpl; auto.
    + now rewrite <- app_assoc.
    + intros H. apply Hw. now right.
Qed.


Lemma split_step_rparen : forall st,
    in_quotes st = false ->
    split_step st c_rparen
    = mkSplit (parts st) (current st ++ [c_rparen]) (paren_depth st - 1)%Z
              false (quote_char st).
Proof.
  intros st Hq. unfold split_step. rewrite Hq.
  change (is_quote c_rparen) with false. cbn [andb negb].
  rewrite andb_false_r. reflexivity.
Qed.


Lemma split_step_chars : forall X st c,
    from_chars X st -> X c -> from_chars X (split_step st c).
Proof.
  intros X st c [Hp Hc] Hx.
  assert (Hkeep : forall d q qc,
             from_chars X (mkSplit (parts st) (current st ++ [c]) d q qc)).
  { intros d q qc. split; simpl; [exact Hp|].
    intros x Hin. apply in_app_or in Hin. destruct Hin as [Hin|[<-|[]]]; auto. }
  unfold split_step.
  destruct (is_quote c && negb (in_quotes st)); [apply Hkeep|].
  destruct (is_quote_char (quote_char st) c && in_quotes st); [apply Hkeep|].
  destruct (negb (in_quotes st)); [|apply Hkeep].
  destruct (c =? c_lparen); [apply Hkeep|].
  destruct (c =? c_rparen); [apply Hkeep|].
  destruct ((c =? c_comma) && (paren_depth st =? 0)%Z); [|apply Hkeep].
  split; simpl; [|intros x []].
  intros p Hin x Hxp. apply in_app_or in Hin. destruct Hin as [Hin|[<-|[]]].
  - now apply (Hp p).
  - apply Hc. now apply strip_incl in Hxp.
Qed.

Lemma split_scan_chars : forall X a st,
    from_chars X st -> (forall c, In c a -> X c) -> from_chars X (split_scan a st).
Proof.
  induction a as [|c a IH]; intros st Hst Ha; [exact Hst|].
  rewrite split_scan_cons. apply IH.
  - apply split_step_chars; [assumption|]. apply Ha. now left.
  - intros x Hx. apply Ha. now right.
Qed.

Lemma split_args_chars : forall a p c,
    In p (split_args a) -> In c p -> In c a.
Proof.
  intros a p c Hp Hc. unfold split_args, split_finish in Hp.
  assert (H : from_chars (fun x => In x a) (split_scan a split_init)).
  { apply split_scan_chars; [|auto]. split; simpl; intros; contradiction. }
  destruct H as [H1 H2].
  destruct (nonempty (strip isspace (current (split_scan a split_init)))).
  - apply in_app_or in Hp. destruct Hp as [Hp|[<-|[]]].
    + now apply (H1 p).
    + apply H2. now apply strip_incl in Hc.
  - now apply (H1 p).
Qed.

(** *** convert_log_call *)

Lemma call_text_fields : forall indent fields,
    fields <> [] ->
    s_comma_nl ++ indent ++ [c_tab]
    ++ join (s_comma_nl ++ indent ++ [c_tab]) fields ++ s_comma_nl ++ indent
    = [c_comma; c_nl]
      ++ concat (map (fun f => indent ++ [c_tab] ++ f ++ [c_comma; c_nl]) fields)
      ++ indent.
Proof.
  intros indent fields Hne. unfold s_comma_nl. cbn [app]. do 2 f_equal.
  induction fields as [|f fields IH]; [congruence|].
  destruct fields as [|f' fields].
  - cbn [join map concat]. repeat (rewrite <- app_assoc; cbn [app]).
    reflexivity.
  - rewrite join_cons by discriminate.
    specialize (IH ltac:(discriminate)).
    set (rest := f' :: fields) in *.
    cbn [map concat]. rewrite <- (app_assoc _ _ indent), <- IH.
    repeat (rewrite <- app_assoc; cbn [app]). reflexivity.
Qed.

Lemma convert_log_call_ok : forall m,
    convert_log_call m
    = Ok (call_text (group1 m) (group2 m) (group3 m)
                    (pair_fields (split_args (args_of m)))).
Proof.
  intros [indent level message g4]. unfold convert_log_call, args_of.
  cbn [group1 group2 group3 group4].
  destruct g4 as [[|c a]|]; cbn [nonempty]; try reflexivity.
  rewrite build_fields_ok. cbn [bind].
  destruct (pair_fields (split_args (c :: a))) as [|f fields] eqn:Ef;
    [reflexivity|].
  cbn [nonempty call_text]. f_equal.
  rewrite call_text_fields by discriminate.
  repeat (rewrite <- app_assoc; cbn [app]). reflexivity.
Qed.

(** *** The shape of a matched line is unique *)

Lemma ws_prefix_unique : forall a b c d x y,
    forallb isspace a = true -> forallb isspace b = true ->
    isspace c = false -> isspace d = false ->
    a ++ c :: x = b ++ d :: y -> a = b /\ c = d /\ x = y.
Proof.
  induction a as [|u a IH]; intros b c d x y Ha Hb Hc Hd E.
  - destruct b as [|v b]; simpl in *.
    + inversion E. auto.
    + inversion E; subst. apply andb_prop in Hb. destruct Hb as [Hv _].
      congruence.
  - destruct b as [|v b]; simpl in *.
    + inversion E; subst. apply andb_prop in Ha. destruct Ha as [Hu _].
      congruence.
    + inversion E; subst. apply andb_prop in Ha. apply andb_prop in Hb.
      destruct Ha as [_ Ha]. destruct Hb as [_ Hb].
      destruct (IH b c d x y Ha Hb Hc Hd H1) as (-> & -> & ->). auto.
Qed.

Lemma level_unique : forall l1 l2 x y,
    In l1 levels -> In l2 levels ->
    l1 ++ c_lparen :: x = l2 ++ c_lparen :: y -> l1 = l2 /\ x = y.
Proof.
  intros l1 l2 x y H1 H2 E. unfold levels in *. simpl in H1, H2.
  destruct H1 as [<-|[<-|[<-|[<-|[]]]]];
    destruct H2 as [<-|[<-|[<-|[<-|[]]]]];
    simpl in E; inversion E; auto.
Qed.

Lemma legacy_call_inv : forall indent level rest m,
    forallb isspace indent = true -> In level levels ->
    legacy_call (indent ++ s_dlogger ++ level ++ c_lparen :: rest) m ->
    group1 m = indent /\ group2 m = level
    /\ exists rest', rest = c_dq :: group3 m ++ c_dq :: rest'
                     /\ group3 m <> [] /\ forallb not_dq (group3 m) = true.
Proof.
  intros indent level rest m Hi Hl (tail & eol & E & Hg1 & Hg2 & Hne & Hq & _).
  unfold s_dlogger in E. cbn [app] in E.
  apply ws_prefix_unique in E; try assumption; try reflexivity.
  destruct E as (E1 & _ & E). subst indent.
  injection E as E. apply level_unique in E; try assumption.
  destruct E as [-> E]. split; [reflexivity|]. split; [reflexivity|].
  exists (tail ++ [c_rparen] ++ eol). split; [|auto].
  exact E.
Qed.

Lemma re_match_none : forall line,
    (forall m, ~ legacy_call line m) -> re_match line = None.
Proof.
  intros line H. destruct (re_match line) as [m|] eqn:E; [|reflexivity].
  apply re_match_sound in E. now apply H in E.
Qed.

(** A line whose first character after the white space is not a d. *)
Lemma no_match_other : forall ws c rest,
    forallb isspace ws = true -> isspace c = false -> c <> 100 ->
    re_match (ws ++ c :: rest) = None.
Proof.
  intros ws c rest Hws Hc Hd. apply re_match_none.
  intros m (tail & eol & E & Hg1 & _).
  unfold s_dlogger in E. cbn [app] in E.
  apply ws_prefix_unique in E; try assumption; try reflexivity.
  destruct E as (_ & E & _). congruence.
Qed.

Lemma no_match_blank : forall ws, forallb isspace ws = true -> re_match ws = None.
Proof.
  intros ws Hws. apply re_match_none.
  intros m (tail & eol & E & Hg1 & _).
  assert (H : forallb isspace
                (group1 m ++ s_dlogger ++ group2 m ++ [c_lparen; c_dq]
                 ++ group3 m ++ [c_dq] ++ tail ++ [c_rparen] ++ eol) = true)
    by now rewrite <- E.
  rewrite forallb_app in H. apply andb_prop in H. destruct H as [_ H].
  discriminate H.
Qed.

(** A call whose first argument does not start with a double quote. *)
Lemma no_match_unquoted : forall indent level c rest,
    forallb isspace indent = true -> In level levels -> c <> c_dq ->
    re_match (indent ++ s_dlogger ++ level ++ c_lparen :: c :: rest) = None.
Proof.
  intros indent level c rest Hi Hl Hc. apply re_match_none. intros m H.
  apply legacy_call_inv in H; try assumption.
  destruct H as (_ & _ & rest' & E & _). congruence.
Qed.

(** A call whose message is the empty literal. *)
Lemma no_match_empty_message : forall indent level rest,
    forallb isspace indent = true -> In level levels ->
    re_match (indent ++ s_dlogger ++ level ++ c_lparen :: c_dq :: c_dq :: rest)
    = None.
Proof.
  intros indent level rest Hi Hl. apply re_match_none. intros m H.
  apply legacy_call_inv in H; try assumption.
  destruct H as (_ & _ & rest' & E & Hne & Hq).
  destruct (group3 m) as [|c message]; [congruence|].
  simpl in E, Hq. inversion E; subst. discriminate Hq.
Qed.

(** *** fix_line and fix_file never fail *)

Lemma fix_line_ok : forall line, fix_line line = Ok (new_line line).
Proof.
  intros line. unfold fix_line, new_line.
  destruct (re_match line); [apply convert_log_call_ok|reflexivity].
Qed.

Lemma fix_lines_ok : forall lines new_lines,
    fix_lines lines new_lines = Ok (new_lines ++ map new_line lines).
Proof.
  induction lines as [|line lines IH]; intros new_lines; simpl.
  - now rewrite app_nil_r.
  - rewrite fix_line_ok. cbn [bind]. rewrite IH, <- app_assoc. reflexivity.
Qed.

Lemma fix_file_ok : forall content,
    fix_file content = Ok (join [c_nl] (map new_line (split_lines content))).
Proof. intros content. unfold fix_file. now rewrite fix_lines_ok. Qed.

(** *** The lines of a rewritten call *)

Lemma pair_fields_in : forall ps f,
    In f (pair_fields ps) ->
    exists key value, In key ps /\ In value ps
                      /\ f = render_field (strip_key key) value.
Proof.
  intros ps. induction ps as [|x|key value ps IH] using pairs_ind; intros f H.
  - destruct H.
  - destruct H.
  - cbn [pair_fields] in H. destruct H as [<-|H].
    + exists key, value. simpl. auto.
    + destruct (IH f H) as (k & v & Hk & Hv & ->).
      exists k, v. simpl. auto.
Qed.

Lemma split_lines_blocks : forall (g : str -> str) fields tail,
    (forall f, In f fields -> ~ In c_nl (g f)) ->
    split_lines (concat (map (fun f => g f ++ [c_nl]) fields) ++ tail)
    = map g fields ++ split_lines tail.
Proof.
  intros g fields tail. induction fields as [|f fields IH]; intros H.
  - reflexivity.
  - cbn [map concat app]. rewrite <- !app_assoc. cbn [app].
    rewrite split_lines_app by (apply H; now left).
    rewrite IH; [reflexivity|]. intros f' Hf'. apply H. now right.
Qed.

Lemma call_text_lines : forall indent level message fields,
    ~ In c_nl indent -> ~ In c_nl level -> ~ In c_nl message ->
    (forall f, In f fields -> ~ In c_nl f) ->
    split_lines (call_text indent level message fields)
    = match fields with
      | [] => [indent ++ s_dlogger ++ level ++ s_ctx ++ message
               ++ [c_dq; c_rparen]]
      | _ :: _ =>
          (indent ++ s_dlogger ++ level ++ s_ctx ++ message ++ [c_dq; c_comma])
            :: map (field_line indent) fields ++ [indent ++ [c_rparen]]
      end.
Proof.
  intros indent level message fields Hi Hl Hm Hf.
  assert (Hhead : forall tail, ~ In c_nl tail ->
             ~ In c_nl (indent ++ s_dlogger ++ level ++ s_ctx ++ message ++ tail)).
  { intros tail Ht H. repeat (apply in_app_or in H; destruct H as [H|H]); auto.
    - unfold s_dlogger in H. simpl in H. intuition discriminate.
    - unfold s_ctx in H. simpl in H. intuition discriminate. }
  destruct fields as [|f fields].
  - cbn [call_text]. apply split_lines_one. apply Hhead.
    simpl. intuition discriminate.
  - cbn [call_text].
    assert (Hmap : map (fun f0 => indent ++ [c_tab] ++ f0 ++ [c_comma; c_nl])
                       (f :: fields)
                   = map (fun f0 => field_line indent f0 ++ [c_nl]) (f :: fields)).
    { apply map_ext. intros a. unfold field_line.
      repeat (rewrite <- app_assoc; cbn [app]). reflexivity. }
    rewrite Hmap. clear Hmap.
    set (blocks := concat (map (fun f0 => field_line indent f0 ++ [c_nl])
                               (f :: fields))).
    replace (indent ++ s_dlogger ++ level ++ s_ctx ++ message
             ++ [c_dq; c_comma; c_nl] ++ blocks ++ indent ++ [c_rparen])
      with ((indent ++ s_dlogger ++ level ++ s_ctx ++ message ++ [c_dq; c_comma])
            ++ c_nl :: blocks ++ indent ++ [c_rparen])
      by (repeat (rewrite <- app_assoc; cbn [app]); reflexivity).
    subst blocks.
    rewrite split_lines_app
      by (apply Hhead; simpl; intuition discriminate).
    f_equal. rewrite split_lines_blocks.
    + f_equal. apply split_lines_one. intros H.
      apply in_app_or in H. destruct H as [H|H]; [auto|].
      simpl in H. intuition discriminate.
    + intros f' Hf' H. unfold field_line in H.
      repeat (apply in_app_or in H; destruct H as [H|H]).
      * auto.
      * simpl in H. intuition discriminate.
      * now apply (Hf f').
      * simpl in H. intuition discriminate.
Qed.

Lemma legacy_call_chars : forall line m c,
    legacy_call line m ->
    In c (group1 m) \/ In c (group2 m) \/ In c (group3 m) \/ In c (args_of m) ->
    In c line.
Proof.
  intros line m c (tail & eol & -> & _ & _ & _ & _ & _ & Ha) H.
  unfold args_of in H.
  destruct H as [H|[H|[H|H]]]; try (repeat rewrite in_app_iff; tauto).
  destruct (group4 m) as [a|]; [|destruct H].
  destruct Ha as (ws & -> & _).
  repeat rewrite in_app_iff. cbn [In]. rewrite in_app_iff. tauto.
Qed.

Lemma render_field_chars : forall key value c,
    In c (render_field (strip_key key) value) ->
    In c s_field_open \/ In c key \/ In c s_field_mid \/ In c value
    \/ In c s_field_close.
Proof.
  intros key value c H. unfold render_field in H.
  repeat (apply in_app_or in H; destruct H as [H|H]); auto.
  right. left. unfold strip_key in H. now do 2 apply strip_incl in H.
Qed.

(** No line that [convert_log_call] writes is matched again. *)
Lemma new_line_not_matched : forall line l,
    ~ In c_nl line -> In l (split_lines (new_line line)) -> re_match l = None.
Proof.
  intros line l Hnl Hl. unfold new_line in Hl.
  destruct (re_match line) as [m|] eqn:E.
  2:{ rewrite split_lines_one in Hl by assumption.
      destruct Hl as [<-|[]]. exact E. }
  apply re_match_sound in E.
  assert (Hin : forall c, In c (group1 m) \/ In c (group2 m) \/ In c (group3 m)
                          \/ In c (args_of m) -> c <> c_nl).
  { intros c H ->. apply Hnl. now apply (legacy_call_chars line m). }
  assert (Hfields : forall f, In f (pair_fields (split_args (args_of m))) ->
                              ~ In c_nl f).
  { intros f Hf H. apply pair_fields_in in Hf.
    destruct Hf as (key & value & Hk & Hv & ->).
    apply render_field_chars in H.
    destruct H as [H|[H|[H|[H|H]]]].
    - simpl in H. intuition discriminate.
    - apply (split_args_chars _ _ _ Hk) in H. apply (Hin c_nl); auto.
    - simpl in H. intuition discriminate.
    - apply (split_args_chars _ _ _ Hv) in H. apply (Hin c_nl); auto.
    - simpl in H. intuition discriminate. }
  rewrite call_text_lines in Hl; auto.
  2,3,4: intros H; apply (Hin c_nl); auto.
  destruct E as (tail & eol & _ & Hg1 & Hg2 & _).
  destruct (pair_fields (split_args (args_of m))) as [|f fields] eqn:Ef.
  - destruct Hl as [<-|[]].
    apply no_match_unquoted; [assumption|assumption|discriminate].
  - destruct Hl as [<-|Hl].
    + apply no_match_unquoted; [assumption|assumption|discriminate].
    + apply in_app_or in Hl. destruct Hl as [Hl|[<-|[]]].
      * apply in_map_iff in Hl. destruct Hl as (f' & <- & Hf').
        rewrite <- Ef in Hf'. apply pair_fields_in in Hf'.
        destruct Hf' as (key & value & _ & _ & ->).
        unfold field_line, render_field, s_field_open.
        change (group1 m ++ [c_tab] ++ ?x) with (group1 m ++ [c_tab] ++ x).
        rewrite app_assoc. cbn [app].
        apply no_match_other; [|reflexivity|discriminate].
        rewrite forallb_app, Hg1. reflexivity.
      * apply no_match_other; [assumption|reflexivity|discriminate].
Qed.

Lemma unchanged_lines : forall lines,
    (forall l, In l lines -> re_match l = None) -> map new_line lines = lines.
Proof.
  induction lines as [|l lines IH]; intros H; [reflexivity|].
  cbn [map]. rewrite IH by (intros l' Hl'; apply H; now right).
  unfold new_line. rewrite (H l) by now left. reflexivity.
Qed.

Lemma fix_file_idempotent : forall content out,
    fix_file content = Ok out -> fix_file out = Ok out.
Proof.
  intros content out H. rewrite fix_file_ok in H.
  injection H as Hout. subst out.
  rewrite fix_file_ok. f_equal.
  rewrite unchanged_lines; [apply join_split_lines|].
  intros l Hl.
  rewrite split_lines_join in Hl.
  2:{ pose proof (split_lines_nonempty content).
      destruct (split_lines content); [congruence|discriminate]. }
  apply in_concat in Hl. destruct Hl as (ls & Hls & Hl).
  apply in_map_iff in Hls. destruct Hls as (nl & <- & Hnl).
  apply in_map_iff in Hnl. destruct Hnl as (line & <- & Hline).
  apply (new_line_not_matched line); [|assumption].
  now apply (split_lines_no_nl content).
Qed.

(** * The claims *)

(** ** C1 *)

(** C1: a line of the file that the pattern does not match is passed through
    unchanged and stands at its own index in the list of new lines; a file in
    which no line is matched is written back as it was read. *)
Theorem unmatched_line_unchanged : forall content,
    (forall i line,
        nth_error (split_lines content) i = Some line ->
        re_match line = None ->
        fix_line line = Ok line
        /\ exists new_lines,
            fix_lines (split_lines content) [] = Ok new_lines
            /\ nth_error new_lines i = Some line)
    /\ ((forall line, In line (split_lines content) -> re_match line = None) ->
        fix_file content = Ok content).
Proof.
  intros content. split.
  - intros i line Hi Hm. split.
    + unfold fix_line. now rewrite Hm.
    + exists (map new_line (split_lines content)). split.
      * apply fix_lines_ok.
      * rewrite nth_error_map, Hi. simpl. unfold new_line. now rewrite Hm.
  - intros Hall. rewrite fix_file_ok, unchanged_lines by assumption.
    f_equal. apply join_split_lines.
Qed.

Lemma unmatched_line_unchanged_witness :
  (fix_line (py "x := 1") = Ok (py "x := 1")
   /\ exists new_lines,
       fix_lines (split_lines (py "x := 1" ++ [c_nl] ++ line_error)) []
       = Ok new_lines
       /\ nth_error new_lines 0%nat = Some (py "x := 1"))
  /\ fix_file (py "x := 1" ++ [c_nl] ++ py "return")
     = Ok (py "x := 1" ++ [c_nl] ++ py "return").
Proof.
  split.
  - apply (proj1 (unmatched_line_unchanged
                    (py "x := 1" ++ [c_nl] ++ line_error)) 0%nat
                 (py "x := 1"));
      reflexivity.
  - apply (proj2 (unmatched_line_unchanged
                    (py "x := 1" ++ [c_nl] ++ py "return"))).
    intros line Hin. vm_compute in Hin.
    destruct Hin as [<-|[<-|[]]]; reflexivity.
Defined.

(** ** C2 *)

(** C2, as stated, fails: the field line carries the package name, it is not
    the bare [Field{...}] text. *)
Lemma one_pair_field_line_is_qualified :
  fix_line line_error
  = Ok ([c_tab] ++ py "d.logger.Error(ctx, " ++ quoted "failed" ++ py ","
        ++ [c_nl; c_tab; c_tab] ++ py "logging.Field{Key: " ++ quoted "err"
        ++ py ", Value: err}," ++ [c_nl; c_tab] ++ py ")")
  /\ fix_line line_error
     <> Ok ([c_tab] ++ py "d.logger.Error(ctx, " ++ quoted "failed" ++ py ","
            ++ [c_nl; c_tab; c_tab] ++ py "Field{Key: " ++ quoted "err"
            ++ py ", Value: err}," ++ [c_nl; c_tab] ++ py ")").
Proof. split; [reflexivity|discriminate]. Qed.

(** C2, amended: a call whose arguments split into one key and one value
    becomes three lines: the opening line ending in a comma, the line of the
    field [logging.Field{Key: ..., Value: ...},] one tab deeper, and the
    closing parenthesis at the original indentation. *)
Theorem one_pair_call_rewritten : forall indent level message ws c a key value,
    forallb isspace indent = true -> In level levels ->
    message <> [] -> forallb not_dq message = true ->
    forallb isspace ws = true -> isspace c = false ->
    forallb dot (c :: a) = true ->
    split_args (c :: a) = [key; value] ->
    fix_line (indent ++ s_dlogger ++ level ++ [c_lparen; c_dq] ++ message
              ++ [c_dq] ++ c_comma :: ws ++ (c :: a) ++ [c_rparen])
    = Ok ((indent ++ s_dlogger ++ level ++ py "(ctx, " ++ [c_dq] ++ message
           ++ [c_dq; c_comma])
          ++ [c_nl]
          ++ (indent ++ [c_tab] ++ py "logging.Field{Key: " ++ [c_dq]
              ++ strip_key key ++ [c_dq] ++ py ", Value: " ++ value ++ py "}"
              ++ [c_comma])
          ++ [c_nl]
          ++ (indent ++ [c_rparen])).
Proof.
  intros indent level message ws c a key value Hi Hl Hne Hq Hws Hc Ha Hs.
  unfold fix_line. rewrite re_match_args by assumption.
  rewrite convert_log_call_ok. unfold args_of. cbn [group1 group2 group3 group4].
  rewrite Hs. cbn [pair_fields call_text map concat]. f_equal.
  unfold render_field, s_field_open, s_field_mid, s_field_close.
  repeat (rewrite <- app_assoc; cbn [app]). reflexivity.
Qed.

Lemma one_pair_call_rewritten_witness :
  fix_line ([c_tab] ++ s_dlogger ++ s_Error ++ [c_lparen; c_dq] ++ py "failed"
            ++ [c_dq] ++ c_comma :: py " " ++ (quoted "err" ++ py ", err")
            ++ [c_rparen])
  = Ok (([c_tab] ++ s_dlogger ++ s_Error ++ py "(ctx, " ++ [c_dq] ++ py "failed"
         ++ [c_dq; c_comma])
        ++ [c_nl]
        ++ ([c_tab] ++ [c_tab] ++ py "logging.Field{Key: " ++ [c_dq]
            ++ strip_key (quoted "err") ++ [c_dq] ++ py ", Value: " ++ py "err"
            ++ py "}" ++ [c_comma])
        ++ [c_nl]
        ++ ([c_tab] ++ [c_rparen])).
Proof.
  apply (one_pair_call_rewritten [c_tab] s_Error (py "failed") (py " ")
           c_dq (py "err" ++ [c_dq] ++ py ", err") (quoted "err") (py "err")).
  - reflexivity.
  - right. right. left. reflexivity.
  - discriminate.
  - reflexivity.
  - reflexivity.
  - reflexivity.
  - reflexivity.
  - reflexivity.
Defined.

(** ** C3 *)

(** C3: no line that the rewriter writes for a matched call is matched by the
    pattern, and running [fix_file] on its own output gives that output
    again. *)
Theorem second_run_changes_nothing :
  (forall line m out l,
      ~ In c_nl line -> re_match line = Some m ->
      convert_log_call m = Ok out -> In l (split_lines out) ->
      re_match l = None)
  /\ (forall content out, fix_file content = Ok out -> fix_file out = Ok out).
Proof.
  split.
  - intros line m out l Hnl Hm Hout Hl.
    apply (new_line_not_matched line); [assumption|].
    unfold new_line. rewrite Hm.
    rewrite convert_log_call_ok in Hout. now injection Hout as ->.
  - apply fix_file_idempotent.
Qed.

Lemma second_run_changes_nothing_witness :
  re_match ([c_tab; c_tab] ++ py "logging.Field{Key: " ++ quoted "err"
            ++ py ", Value: err},") = None
  /\ fix_file content_example_out = Ok content_example_out.
Proof.
  destruct second_run_changes_nothing as [Hline Hfile]. split.
  - apply (Hline line_error
                 (mkMatch [c_tab] s_Error (py "failed")
                          (Some (quoted "err" ++ py ", err")))
                 ([c_tab] ++ py "d.logger.Error(ctx, " ++ quoted "failed"
                  ++ py "," ++ [c_nl; c_tab; c_tab] ++ py "logging.Field{Key: "
                  ++ quoted "err" ++ py ", Value: err}," ++ [c_nl; c_tab]
                  ++ py ")")).
    + intros H. vm_compute in H. intuition discriminate.
    + reflexivity.
    + reflexivity.
    + vm_compute. right. left. reflexivity.
  - apply (Hfile content_example). reflexivity.
Defined.

(** ** C4 *)




(** ** C5 *)

(** C5: from an opening quote character to the next quote character of the
    same kind, everything goes into the current part, commas included, and no
    part is split off. *)
Theorem quoted_commas_kept : forall st q w,
    in_quotes st = false -> is_quote q = true -> ~ In q w ->
    split_scan (q :: w ++ [q]) st
    = mkSplit (parts st) (current st ++ q :: w ++ [q]) (paren_depth st)
              false None.
Proof.
  intros st q w Hin Hq Hw.
  rewrite split_scan_cons.
  assert (Hopen : split_step st q
                  = mkSplit (parts st) (current st ++ [q]) (paren_depth st)
                            true (Some q)).
  { unfold split_step. rewrite Hin, Hq. reflexivity. }
  rewrite Hopen, split_scan_app.
  rewrite (scan_quoted w _ q); [|reflexivity|reflexivity|assumption].
  cbn [parts current paren_depth in_quotes quote_char split_scan fold_left].
  unfold split_step.
  cbn [parts current paren_depth in_quotes quote_char is_quote_char negb].
  rewrite Hq, N.eqb_refl. cbn [andb].
  rewrite <- !app_assoc. reflexivity.
Qed.

Lemma quoted_commas_kept_witness :
  split_scan (c_dq :: py "a, b" ++ [c_dq])
             (mkSplit [quoted "k"] (py " ") 0%Z false None)
  = mkSplit [quoted "k"] (py " " ++ c_dq :: py "a, b" ++ [c_dq]) 0%Z false None.
Proof.
  apply (quoted_commas_kept (mkSplit [quoted "k"] (py " ") 0%Z false None)
                            c_dq (py "a, b")).
  - reflexivity.
  - reflexivity.
  - intros H. vm_compute in H. intuition discriminate.
Defined.

(** ** C6 *)

(** C6: with an odd number of parts the last part is dropped: the fields are
    those of the parts before it, two at a time and in order, no error is
    raised, and the text written is built from those fields alone. *)
Theorem odd_part_dropped : forall ps p,
    Nat.even (length ps) = true ->
    build_fields (ps ++ [p]) = Ok (pair_fields ps)
    /\ build_fields (ps ++ [p]) = build_fields ps
    /\ length (pair_fields ps) = Nat.div2 (length ps)
    /\ forall m, split_args (args_of m) = ps ++ [p] ->
                 convert_log_call m
                 = Ok (call_text (group1 m) (group2 m) (group3 m)
                                 (pair_fields ps)).
Proof.
  intros ps p He. split; [|split; [|split]].
  - rewrite build_fields_ok. f_equal. now apply pair_fields_odd.
  - rewrite !build_fields_ok. f_equal. now apply pair_fields_odd.
  - apply pair_fields_length.
  - intros m Hm. rewrite convert_log_call_ok, Hm. do 2 f_equal.
    now apply pair_fields_odd.
Qed.

Lemma odd_part_dropped_witness :
  build_fields ([quoted "err"; py "err"] ++ [py "extra"])
  = Ok (pair_fields [quoted "err"; py "err"])
  /\ build_fields ([quoted "err"; py "err"] ++ [py "extra"])
     = build_fields [quoted "err"; py "err"]
  /\ length (pair_fields [quoted "err"; py "err"]) = Nat.div2 2
  /\ forall m, split_args (args_of m) = [quoted "err"; py "err"] ++ [py "extra"] ->
               convert_log_call m
               = Ok (call_text (group1 m) (group2 m) (group3 m)
                               (pair_fields [quoted "err"; py "err"])).
Proof.
  apply (odd_part_dropped [quoted "err"; py "err"] (py "extra")). reflexivity.
Defined.

(** ** C7 *)

(** C7: a call without trailing arguments becomes the same line with [ctx]
    as first argument: same indentation, same level, same message. *)
Theorem no_args_call_rewritten : forall indent level message,
    forallb isspace indent = true -> In level levels ->
    message <> [] -> forallb not_dq message = true ->
    fix_line (indent ++ s_dlogger ++ level ++ [c_lparen; c_dq] ++ message
              ++ [c_dq; c_rparen])
    = Ok (indent ++ s_dlogger ++ level ++ py "(ctx, " ++ [c_dq] ++ message
          ++ [c_dq; c_rparen]).
Proof.
  intros indent level message Hi Hl Hne Hq.
  unfold fix_line. rewrite re_match_noargs by assumption.
  rewrite convert_log_call_ok. reflexivity.
Qed.

Lemma no_args_call_rewritten_witness :
  fix_line (py "    " ++ s_dlogger ++ s_Info ++ [c_lparen; c_dq] ++ py "message"
            ++ [c_dq; c_rparen])
  = Ok (py "    " ++ s_dlogger ++ s_Info ++ py "(ctx, " ++ [c_dq] ++ py "message"
        ++ [c_dq; c_rparen]).
Proof.
  apply (no_args_call_rewritten (py "    ") s_Info (py "message")).
  - reflexivity.
  - left. reflexivity.
  - discriminate.
  - reflexivity.
Defined.

(** ** C8 *)

(** C8, as stated, fails: a key part in single quotes that holds double
    quotes is one part for the splitter, and its double quotes stay in the
    key. *)
Lemma key_keeps_inner_double_quotes :
  split_args ([c_sq] ++ quoted "a" ++ [c_sq] ++ py ", v")
  = [[c_sq] ++ quoted "a" ++ [c_sq]; py "v"]
  /\ build_fields [[c_sq] ++ quoted "a" ++ [c_sq]; py "v"]
     = Ok [render_field (quoted "a") (py "v")]
  /\ build_fields [[c_sq] ++ quoted "a" ++ [c_sq]; py "v"]
     <> Ok [render_field (strip_quotes_spec ([c_sq] ++ quoted "a" ++ [c_sq]))
                         (py "v")].
Proof. split; [reflexivity|split; [reflexivity|discriminate]]. Qed.

(** C8, amended: the key of a field is the key part with the double quotes
    stripped from both ends and then the single quotes stripped from both
    ends of what is left; the value is the value part as it is. *)
Theorem field_key_and_value : forall ps i key value,
    nth_error ps (2 * i) = Some key ->
    nth_error ps (2 * i + 1) = Some value ->
    exists fields,
      build_fields ps = Ok fields
      /\ nth_error fields i
         = Some (py "logging.Field{Key: " ++ [c_dq]
                 ++ strip (in_set [c_sq]) (strip (in_set [c_dq]) key)
                 ++ [c_dq] ++ py ", Value: " ++ value ++ py "}").
Proof.
  intros ps i key value Hk Hv. exists (pair_fields ps). split.
  - apply build_fields_ok.
  - rewrite (pair_fields_nth ps i key value Hk Hv). reflexivity.
Qed.

Lemma field_key_and_value_witness :
  exists fields,
    build_fields [quoted "request_id"; py "req.ID"] = Ok fields
    /\ nth_error fields 0
       = Some (py "logging.Field{Key: " ++ [c_dq]
               ++ strip (in_set [c_sq]) (strip (in_set [c_dq]) (quoted "request_id"))
               ++ [c_dq] ++ py ", Value: " ++ py "req.ID" ++ py "}").
Proof.
  apply (field_key_and_value [quoted "request_id"; py "req.ID"] 0
                             (quoted "request_id") (py "req.ID"));
    reflexivity.
Defined.

(** ** C9 *)

(** C9: the splitter and the field builder end without an error on every
    argument text, and so do [convert_log_call] on every match and [fix_file]
    on every text. *)
Theorem convert_log_call_total :
  (forall args, exists fields, build_fields (split_args args) = Ok fields)
  /\ (forall m, exists out, convert_log_call m = Ok out)
  /\ (forall content, exists out, fix_file content = Ok out).
Proof.
  split; [|split].
  - intros args. eexists. apply build_fields_ok.
  - intros m. eexists. apply convert_log_call_ok.
  - intros content. eexists. apply fix_file_ok.
Qed.

(** ** C10 *)

(** C10: a call whose message is the empty literal is not matched, whatever
    follows, and the line is passed through unchanged. *)
Theorem empty_message_not_matched : forall indent level rest,
    forallb isspace indent = true -> In level levels ->
    re_match (indent ++ s_dlogger ++ level ++ [c_lparen; c_dq; c_dq] ++ rest)
    = None
    /\ fix_line (indent ++ s_dlogger ++ level ++ [c_lparen; c_dq; c_dq] ++ rest)
       = Ok (indent ++ s_dlogger ++ level ++ [c_lparen; c_dq; c_dq] ++ rest).
Proof.
  intros indent level rest Hi Hl.
  assert (H : re_match (indent ++ s_dlogger ++ level
                        ++ [c_lparen; c_dq; c_dq] ++ rest) = None)
    by (apply no_match_empty_message; assumption).
  split; [exact H|]. unfold fix_line. now rewrite H.
Qed.

Lemma empty_message_not_matched_witness :
  re_match ([] ++ s_dlogger ++ s_Info ++ [c_lparen; c_dq; c_dq] ++ [c_rparen])
  = None
  /\ fix_line ([] ++ s_dlogger ++ s_Info ++ [c_lparen; c_dq; c_dq] ++ [c_rparen])
     = Ok ([] ++ s_dlogger ++ s_Info ++ [c_lparen; c_dq; c_dq] ++ [c_rparen]).
Proof.
  apply (empty_message_not_matched [] s_Info [c_rparen]).
  - reflexivity.
  - left. reflexivity.
Defined.

(** * Further properties *)

(** *** More on stripping *)

Lemma dropwhile_idem : forall p s, dropwhile p (dropwhile p s) = dropwhile p s.
Proof.
  induction s as [|c s IH]; simpl; [reflexivity|].
  destruct (p c) eqn:E; [exact IH|]. simpl. now rewrite E.
Qed.

Lemma dropwhile_snoc : forall p s c,
    p c = false -> dropwhile p (s ++ [c]) = dropwhile p s ++ [c].
Proof.
  induction s as [|x s IH]; intros c Hc; simpl.
  - now rewrite Hc.
  - destruct (p x); [now apply IH|reflexivity].
Qed.

Lemma dropwhile_all : forall p ws s,
    forallb p ws = true -> dropwhile p (ws ++ s) = dropwhile p s.
Proof.
  induction ws as [|c ws IH]; intros s H; simpl in *; [reflexivity|].
  apply andb_prop in H. destruct H as [Hc H]. rewrite Hc. now apply IH.
Qed.

Lemma rstrip_cons : forall p c s,
    p c = false -> rstrip p (c :: s) = c :: rstrip p s.
Proof.
  intros p c s Hc. unfold rstrip. simpl.
  rewrite dropwhile_snoc by assumption. rewrite rev_app_distr. reflexivity.
Qed.

Lemma rstrip_idem : forall p s, rstrip p (rstrip p s) = rstrip p s.
Proof.
  intros p s. unfold rstrip. rewrite rev_involutive, dropwhile_idem. reflexivity.
Qed.

Lemma strip_idem : forall p s, strip p (strip p s) = strip p s.
Proof.
  intros p s. unfold strip, lstrip.
  assert (H : dropwhile p (rstrip p (dropwhile p s)) = rstrip p (dropwhile p s)).
  { destruct (dropwhile p s) as [|c x] eqn:E; [reflexivity|].
    assert (Hc : p c = false).
    { clear -E. induction s as [|y s IH]; simpl in E; [discriminate|].
      destruct (p y) eqn:Ey; [now apply IH|]. inversion E; subst. exact Ey. }
    rewrite rstrip_cons by assumption. simpl. now rewrite Hc. }
  rewrite H. apply rstrip_idem.
Qed.

Lemma dropwhile_in : forall p s c,
    In c s -> p c = false -> In c (dropwhile p s).
Proof.
  induction s as [|x s IH]; intros c Hin Hc; [destruct Hin|].
  simpl. destruct (p x) eqn:Ex.
  - destruct Hin as [->|Hin]; [congruence|]. now apply IH.
  - exact Hin.
Qed.

Lemma strip_in : forall p s c, In c s -> p c = false -> In c (strip p s).
Proof.
  intros p s c Hin Hc. unfold strip, rstrip, lstrip.
  apply -> in_rev. apply dropwhile_in; [|assumption].
  apply in_rev. rewrite rev_involutive. now apply dropwhile_in.
Qed.

Lemma strip_nonempty : forall p s c,
    In c s -> p c = false -> nonempty (strip p s) = true.
Proof.
  intros p s c Hin Hc. pose proof (strip_in p s c Hin Hc) as H.
  destruct (strip p s); [destruct H|reflexivity].
Qed.

Lemma filter_dropwhile : forall (f p : char -> bool) s,
    (forall c, p c = true -> f c = false) ->
    filter f (dropwhile p s) = filter f s.
Proof.
  intros f p s H. induction s as [|c s IH]; simpl; [reflexivity|].
  destruct (p c) eqn:E; [|reflexivity]. now rewrite (H c E).
Qed.

Lemma filter_strip : forall (f p : char -> bool) s,
    (forall c, p c = true -> f c = false) ->
    filter f (strip p s) = filter f s.
Proof.
  intros f p s H. unfold strip, rstrip, lstrip.
  rewrite filter_rev, filter_dropwhile, filter_rev, rev_involutive by assumption.
  now apply filter_dropwhile.
Qed.

Lemma strip_plain : forall p ws t,
    forallb p ws = true -> forallb (fun c => negb (p c)) t = true ->
    strip p (ws ++ t) = t.
Proof.
  intros p ws t Hws Ht. unfold strip, lstrip.
  rewrite dropwhile_all by assumption.
  assert (H1 : dropwhile p t = t).
  { destruct t as [|c t]; [reflexivity|]. simpl in *.
    apply andb_prop in Ht. destruct Ht as [Hc _].
    apply negb_true_iff in Hc. now rewrite Hc. }
  rewrite H1. unfold rstrip.
  assert (H2 : dropwhile p (rev t) = rev t).
  { apply dropwhile_id. destruct (rev t) as [|c r] eqn:E; [exact I|].
    assert (Hin : In c t) by (apply in_rev; rewrite E; now left).
    rewrite forallb_forall in Ht. apply Ht in Hin. now apply negb_true_iff. }
  rewrite H2. apply rev_involutive.
Qed.

(** *** More on the splitter *)

Lemma kept_not_space : forall c, isspace c = true -> kept c = false.
Proof. intros c H. unfold kept. now rewrite H. Qed.

Lemma split_step_kept : forall st c,
    filter kept (concat (parts (split_step st c)) ++ current (split_step st c))
    = filter kept (concat (parts st) ++ current st) ++ filter kept [c].
Proof.
  intros st c.
  assert (Hkeep : filter kept (concat (parts st) ++ current st ++ [c])
                  = filter kept (concat (parts st) ++ current st)
                    ++ filter kept [c])
    by now rewrite app_assoc, filter_app.
  unfold split_step. cbv zeta.
  destruct (is_quote c && negb (in_quotes st)); [exact Hkeep|].
  destruct (is_quote_char (quote_char st) c && in_quotes st); [exact Hkeep|].
  destruct (negb (in_quotes st)); [|exact Hkeep].
  destruct (c =? c_lparen); [exact Hkeep|].
  destruct (c =? c_rparen); [exact Hkeep|].
  destruct (N.eqb_spec c c_comma) as [->|Hc]; cbn [andb]; [|exact Hkeep].
  destruct (paren_depth st =? 0)%Z; [|exact Hkeep].
  cbn [parts current]. rewrite app_nil_r, concat_app. cbn [concat].
  rewrite app_nil_r, !filter_app.
  rewrite (filter_strip kept isspace) by apply kept_not_space.
  change (filter kept [c_comma]) with (@nil char). now rewrite app_nil_r.
Qed.

Lemma split_scan_kept : forall a st,
    filter kept (concat (parts (split_scan a st)) ++ current (split_scan a st))
    = filter kept (concat (parts st) ++ current st) ++ filter kept a.
Proof.
  induction a as [|c a IH]; intros st.
  - simpl. now rewrite app_nil_r.
  - rewrite split_scan_cons, IH, split_step_kept, <- app_assoc.
    now rewrite <- filter_app.
Qed.

Lemma split_finish_kept : forall st,
    filter kept (concat (split_finish st))
    = filter kept (concat (parts st) ++ current st).
Proof.
  intros st. unfold split_finish. rewrite filter_app.
  rewrite <- (filter_strip kept isspace (current st)) by apply kept_not_space.
  destruct (strip isspace (current st)) as [|c s] eqn:E; cbn [nonempty].
  - simpl. now rewrite app_nil_r.
  - rewrite concat_app. cbn [concat]. now rewrite app_nil_r, filter_app.
Qed.

Lemma split_step_stripped : forall st c,
    Forall (fun p => strip isspace p = p) (parts st) ->
    Forall (fun p => strip isspace p = p) (parts (split_step st c)).
Proof.
  intros st c H. unfold split_step.
  destruct (is_quote c && negb (in_quotes st)); [exact H|].
  destruct (is_quote_char (quote_char st) c && in_quotes st); [exact H|].
  destruct (negb (in_quotes st)); [|exact H].
  destruct (c =? c_lparen); [exact H|].
  destruct (c =? c_rparen); [exact H|].
  destruct ((c =? c_comma) && (paren_depth st =? 0)%Z); [|exact H].
  cbn [parts]. apply Forall_app. split; [exact H|].
  constructor; [apply strip_idem|constructor].
Qed.

Lemma split_scan_stripped : forall a st,
    Forall (fun p => strip isspace p = p) (parts st) ->
    Forall (fun p => strip isspace p = p) (parts (split_scan a st)).
Proof.
  induction a as [|c a IH]; intros st H; [exact H|].
  rewrite split_scan_cons. apply IH. now apply split_step_stripped.
Qed.

(** Text without quotes and parentheses, read at a depth that is not zero. *)
Lemma scan_flat_nonzero : forall w st,
    in_quotes st = false -> paren_depth st <> 0%Z ->
    forallb flat_char w = true ->
    split_scan w st
    = mkSplit (parts st) (current st ++ w) (paren_depth st) false (quote_char st).
Proof.
  induction w as [|c w IH]; intros st Hq Hd Hw.
  - simpl. rewrite app_nil_r. destruct st; simpl in *; now subst.
  - rewrite split_scan_cons. simpl in Hw. apply andb_prop in Hw.
    destruct Hw as [Hc Hw]. unfold flat_char in Hc.
    apply negb_true_iff in Hc. apply orb_false_elim in Hc.
    destruct Hc as [Hc Hr]. apply orb_false_elim in Hc. destruct Hc as [Hc Hl].
    assert (Hz : (paren_depth st =? 0)%Z = false) by now apply Z.eqb_neq.
    assert (Hstep : split_step st c
                    = mkSplit (parts st) (current st ++ [c]) (paren_depth st)
                              false (quote_char st)).
    { unfold split_step. rewrite Hq, Hc, Hl, Hr, Hz. cbn [andb negb].
      rewrite !andb_false_r. reflexivity. }
    rewrite Hstep, IH; cbn [parts current paren_depth in_quotes quote_char]; auto.
    now rewrite <- app_assoc.
Qed.

(** Plain text, read outside quotes. *)
Lemma scan_plain : forall t st,
    in_quotes st = false -> forallb plain_char t = true ->
    split_scan t st
    = mkSplit (parts st) (current st ++ t) (paren_depth st) false (quote_char st).
Proof.
  induction t as [|c t IH]; intros st Hq Ht.
  - simpl. rewrite app_nil_r. destruct st; simpl in *; now subst.
  - rewrite split_scan_cons. simpl in Ht. apply andb_prop in Ht.
    destruct Ht as [Hc Ht]. unfold plain_char in Hc.
    apply negb_true_iff in Hc.
    apply orb_false_elim in Hc. destruct Hc as [Hc Hcomma].
    apply orb_false_elim in Hc. destruct Hc as [Hc Hr].
    apply orb_false_elim in Hc. destruct Hc as [Hc Hl].
    apply orb_false_elim in Hc. destruct Hc as [_ Hc].
    assert (Hstep : split_step st c
                    = mkSplit (parts st) (current st ++ [c]) (paren_depth st)
                              false (quote_char st)).
    { unfold split_step. rewrite Hq, Hc, Hl, Hr, Hcomma. cbn [andb negb].
      rewrite !andb_false_r. reflexivity. }
    rewrite Hstep, IH; cbn [parts current paren_depth in_quotes quote_char]; auto.
    now rewrite <- app_assoc.
Qed.

Lemma plain_not_space : forall t,
    forallb plain_char t = true -> forallb (fun c => negb (isspace c)) t = true.
Proof.
  intros t H. rewrite forallb_forall in *. intros c Hc. apply H in Hc.
  unfold plain_char in Hc. apply negb_true_iff in Hc.
  do 4 (apply orb_false_elim in Hc; destruct Hc as [Hc _]).
  now apply negb_true_iff.
Qed.

Lemma split_plain_tokens : forall ts t ps ws qc,
    forallb isspace ws = true ->
    forallb plain_token (t :: ts) = true ->
    split_finish (split_scan (join s_comma_space (t :: ts))
                             (mkSplit ps ws 0%Z false qc))
    = ps ++ t :: ts.
Proof.
  induction ts as [|t' ts IH]; intros t ps ws qc Hws Hts.
  - cbn [join]. simpl in Hts. rewrite andb_true_r in Hts.
    unfold plain_token in Hts. apply andb_prop in Hts. destruct Hts as [Hne Ht].
    rewrite scan_plain by (try reflexivity; assumption).
    unfold split_finish. cbn [parts current].
    rewrite strip_plain by (try assumption; now apply plain_not_space).
    now rewrite Hne.
  - rewrite join_cons by discriminate.
    cbn [forallb] in Hts. apply andb_prop in Hts. destruct Hts as [Ht Hts].
    unfold plain_token in Ht. apply andb_prop in Ht. destruct Ht as [Hne Ht].
    rewrite split_scan_app, (scan_plain t) by (try reflexivity; assumption).
    cbn [parts current paren_depth in_quotes quote_char].
    unfold s_comma_space. cbn [app]. rewrite !split_scan_cons.
    assert (Hcomma : split_step (mkSplit ps (ws ++ t) 0%Z false qc) c_comma
                     = mkSplit (ps ++ [t]) [] 0%Z false qc).
    { unfold split_step. cbn [parts current paren_depth in_quotes quote_char].
      change (is_quote c_comma) with false.
      change (c_comma =? c_lparen) with false.
      change (c_comma =? c_rparen) with false.
      change (c_comma =? c_comma) with true.
      cbn [andb negb]. rewrite andb_false_r. cbn [Z.eqb].
      rewrite strip_plain by (try assumption; now apply plain_not_space).
      reflexivity. }
    change 44 with c_comma. rewrite Hcomma.
    assert (Hsp : split_step (mkSplit (ps ++ [t]) [] 0%Z false qc) 32
                  = mkSplit (ps ++ [t]) [32] 0%Z false qc).
    { unfold split_step. cbn [parts current paren_depth in_quotes quote_char].
      change (is_quote 32) with false. cbn [andb negb].
      rewrite andb_false_r. reflexivity. }
    rewrite Hsp, IH by (try reflexivity; assumption).
    now rewrite <- app_assoc.
Qed.

(** *** More on the pattern *)

(** Arguments that are white space only: the greedy white space gives its
    last character back to group 4. *)
Lemma run_opt_blank : forall (A : Type) (k : nat -> str -> captures -> option A)
                             pos g ws c r,
    forallb isspace ws = true -> isspace c = true -> dot c = true ->
    k (pos + 1 + length ws + 1 + 1)%nat [] (set_group 4 [c] g) = Some r ->
    run (Opt p_args >> p_close) pos (c_comma :: ws ++ [c; c_rparen]) g k = Some r.
Proof.
  intros A k pos g ws c r Hws Hc Hd Hk.
  change (run (Opt p_args >> p_close) pos (c_comma :: ws ++ [c; c_rparen]) g k)
    with (match star true isspace (pos + 1) (ws ++ [c; c_rparen])
                  (fun pos1 s1 =>
                     run (Group 4 (Plus false dot)) pos1 s1 g
                         (fun pos2 s2 g2 => run p_close pos2 s2 g2 k))
          with
          | Some r => Some r
          | None => run p_close pos (c_comma :: ws ++ [c; c_rparen]) g k
          end).
  erewrite star_greedy_back; [reflexivity|assumption|assumption| |].
  - reflexivity.
  - cbn [run Plus]. rewrite Hd.
    apply star_lazy_here. rewrite run_close.
    rewrite (firstn_consumed [c] [c_rparen]) by (cbn [length]; lia).
    rewrite <- Hk. f_equal. lia.
Qed.

Lemma space_not_special : forall c,
    isspace c = true ->
    is_quote c = false /\ (c =? c_lparen) = false /\ (c =? c_rparen) = false
    /\ (c =? c_comma) = false.
Proof.
  intros c H. unfold is_quote.
  destruct (N.eqb_spec c c_dq) as [->|_]; [discriminate|].
  destruct (N.eqb_spec c c_sq) as [->|_]; [discriminate|].
  destruct (N.eqb_spec c c_lparen) as [->|_]; [discriminate|].
  destruct (N.eqb_spec c c_rparen) as [->|_]; [discriminate|].
  destruct (N.eqb_spec c c_comma) as [->|_]; [discriminate|].
  auto.
Qed.

Lemma split_args_blank : forall c, isspace c = true -> split_args [c] = [].
Proof.
  intros c H. destruct (space_not_special c H) as (Hq & Hl & Hr & Hc).
  unfold split_args, split_scan. cbn [fold_left]. unfold split_step.
  cbn [split_init parts current paren_depth in_quotes quote_char].
  rewrite Hq, Hl, Hr, Hc. cbn [andb negb is_quote_char app].
  unfold split_finish, strip, rstrip, lstrip. cbn [current dropwhile].
  rewrite H. reflexivity.
Qed.

Lemma legacy_call_plain : forall line m,
    ~ In c_nl line -> legacy_call line m ->
    forallb isspace (group1 m) = true /\ In (group2 m) levels
    /\ group3 m <> [] /\ forallb not_dq (group3 m) = true
    /\ match group4 m with
       | None =>
           line = group1 m ++ s_dlogger ++ group2 m ++ [c_lparen; c_dq]
                  ++ group3 m ++ [c_dq; c_rparen]
       | Some a =>
           a <> []
           /\ exists ws,
               forallb isspace ws = true
               /\ line = group1 m ++ s_dlogger ++ group2 m ++ [c_lparen; c_dq]
                         ++ group3 m ++ [c_dq; c_comma] ++ ws ++ a ++ [c_rparen]
       end.
Proof.
  intros line m Hnl (tail & eol & E & Hg1 & Hg2 & Hne & Hq & Heol & Ha).
  assert (eol = []) as ->.
  { destruct Heol as [->| ->]; [reflexivity|]. exfalso. apply Hnl. subst line.
    repeat (apply in_or_app; right). now left. }
  repeat (split; [assumption|]).
  destruct (group4 m) as [a|].
  - destruct Ha as (ws & -> & Hws & Hane & _). split; [assumption|].
    exists ws. split; [assumption|]. subst line.
    cbn [app]. repeat (rewrite <- app_assoc; cbn [app]). reflexivity.
  - subst tail line. reflexivity.
Qed.

(** *** More on the text written *)

Lemma matched_call_lines : forall line m,
    ~ In c_nl line -> re_match line = Some m ->
    split_lines (call_text (group1 m) (group2 m) (group3 m)
                           (pair_fields (split_args (args_of m))))
    = match pair_fields (split_args (args_of m)) with
      | [] => [group1 m ++ s_dlogger ++ group2 m ++ s_ctx ++ group3 m
               ++ [c_dq; c_rparen]]
      | _ :: _ =>
          (group1 m ++ s_dlogger ++ group2 m ++ s_ctx ++ group3 m
           ++ [c_dq; c_comma])
            :: map (field_line (group1 m)) (pair_fields (split_args (args_of m)))
            ++ [group1 m ++ [c_rparen]]
      end.
Proof.
  intros line m Hnl E. apply re_match_sound in E.
  assert (Hin : forall c, In c (group1 m) \/ In c (group2 m) \/ In c (group3 m)
                          \/ In c (args_of m) -> c <> c_nl).
  { intros c H ->. apply Hnl. now apply (legacy_call_chars line m). }
  apply call_text_lines.
  1,2,3: intros H; apply (Hin c_nl); auto.
  intros f Hf H. apply pair_fields_in in Hf.
  destruct Hf as (key & value & Hk & Hv & ->).
  apply render_field_chars in H.
  destruct H as [H|[H|[H|[H|H]]]].
  - simpl in H. intuition discriminate.
  - apply (split_args_chars _ _ _ Hk) in H. apply (Hin c_nl); auto.
  - simpl in H. intuition discriminate.
  - apply (split_args_chars _ _ _ Hv) in H. apply (Hin c_nl); auto.
  - simpl in H. intuition discriminate.
Qed.

Lemma join_app : forall sep xs ys,
    xs <> [] -> ys <> [] ->
    join sep (xs ++ ys) = join sep xs ++ sep ++ join sep ys.
Proof.
  intros sep xs ys Hx Hy. induction xs as [|x xs IH]; [congruence|].
  destruct xs as [|x' xs].
  - cbn [app]. rewrite join_cons by assumption. reflexivity.
  - change ((x :: x' :: xs) ++ ys) with (x :: (x' :: xs) ++ ys).
    rewrite join_cons by discriminate. rewrite IH by discriminate.
    rewrite (join_cons sep x (x' :: xs)) by discriminate.
    now rewrite <- !app_assoc.
Qed.

Lemma rstrip_snoc : forall p s d, p d = true -> rstrip p (s ++ [d]) = rstrip p s.
Proof.
  intros p s d H. unfold rstrip. rewrite rev_app_distr. simpl. now rewrite H.
Qed.

Lemma rev_last : forall (s : str) d,
    s <> [] -> rev s = last s d :: rev (removelast s).
Proof.
  intros s d H. rewrite (app_removelast_last d H) at 1.
  now rewrite rev_app_distr.
Qed.

Lemma rstrip_keep : forall p (s : str) d,
    s <> [] -> p (last s d) = false -> rstrip p s = s.
Proof.
  intros p s d Hne Hp. unfold rstrip. rewrite (rev_last s d Hne).
  cbn [dropwhile]. rewrite Hp. rewrite <- (rev_last s d Hne).
  apply rev_involutive.
Qed.

Lemma run_unique : forall (p : char -> bool) a b c d x y,
    forallb p a = true -> forallb p b = true ->
    p c = false -> p d = false ->
    a ++ c :: x = b ++ d :: y -> a = b /\ c = d /\ x = y.
Proof.
  intros p. induction a as [|u a IH]; intros b c d x y Ha Hb Hc Hd E.
  - destruct b as [|v b]; simpl in *.
    + inversion E. auto.
    + inversion E; subst. apply andb_prop in Hb. destruct Hb as [Hv _].
      congruence.
  - destruct b as [|v b]; simpl in *.
    + inversion E; subst. apply andb_prop in Ha. destruct Ha as [Hu _].
      congruence.
    + inversion E; subst. apply andb_prop in Ha. apply andb_prop in Hb.
      destruct Ha as [_ Ha]. destruct Hb as [_ Hb].
      destruct (IH b c d x y Ha Hb Hc Hd H1) as (-> & -> & ->). auto.
Qed.

Lemma strip_prefix_snoc : forall l c x,
    strip_prefix (l ++ [c]) (l ++ c :: x) = Some x.
Proof.
  intros l c x. replace (l ++ c :: x) with ((l ++ [c]) ++ x)
    by now rewrite <- app_assoc.
  apply strip_prefix_here.
Qed.

Lemma concat_length_ge : forall (ls : list (list str)),
    (forall l, In l ls -> l <> []) -> (length ls <= length (concat ls))%nat.
Proof.
  induction ls as [|l ls IH]; intros H; [reflexivity|].
  cbn [concat length]. rewrite length_app.
  assert (Hl : l <> []) by (apply H; now left).
  assert (IH' : (length ls <= length (concat ls))%nat)
    by (apply IH; intros l' Hl'; apply H; now right).
  destruct l; [congruence|]. cbn [length]. lia.
Qed.


(** * Further theorems *)

(** ** X1 *)

(** X1: what the pattern accepts.  A matched line without a line feed is
    white space, [d.logger.], one of the four levels, the message in double
    quotes (not empty, no double quote in it) and then either the closing
    parenthesis, or a comma, white space, arguments that are not empty and
    the closing parenthesis; the groups are these pieces. *)
Theorem matched_line_shape : forall line m,
    ~ In c_nl line -> re_match line = Some m ->
    forallb isspace (group1 m) = true /\ In (group2 m) levels
    /\ group3 m <> [] /\ forallb not_dq (group3 m) = true
    /\ match group4 m with
       | None =>
           line = group1 m ++ s_dlogger ++ group2 m ++ [c_lparen; c_dq]
                  ++ group3 m ++ [c_dq; c_rparen]
       | Some a =>
           a <> []
           /\ exists ws,
               forallb isspace ws = true
               /\ line = group1 m ++ s_dlogger ++ group2 m ++ [c_lparen; c_dq]
                         ++ group3 m ++ [c_dq; c_comma] ++ ws ++ a ++ [c_rparen]
       end.
Proof.
  intros line m Hnl Hm. apply legacy_call_plain; [assumption|].
  now apply re_match_sound.
Qed.

Lemma matched_line_shape_witness :
  forallb isspace [c_tab] = true /\ In s_Error levels
  /\ py "failed" <> [] /\ forallb not_dq (py "failed") = true
  /\ (quoted "err" ++ py ", err" <> []
      /\ exists ws,
          forallb isspace ws = true
          /\ line_error = [c_tab] ++ s_dlogger ++ s_Error ++ [c_lparen; c_dq]
                          ++ py "failed" ++ [c_dq; c_comma] ++ ws
                          ++ (quoted "err" ++ py ", err") ++ [c_rparen]).
Proof.
  apply (matched_line_shape line_error
           (mkMatch [c_tab] s_Error (py "failed")
                    (Some (quoted "err" ++ py ", err")))).
  - intros H. vm_compute in H. intuition discriminate.
  - reflexivity.
Defined.

(** ** X2 *)

(** X2: group 4 is the whole rest of the line.  When the arguments start
    with a character that is not white space, the lazy group 4 still runs to
    the last parenthesis of the line, over any parenthesis, comma or quote in
    between, and the white space after the first comma is left out. *)
Theorem args_group_is_rest : forall indent level message ws c a,
    forallb isspace indent = true -> In level levels ->
    message <> [] -> forallb not_dq message = true ->
    forallb isspace ws = true -> isspace c = false ->
    forallb dot (c :: a) = true ->
    re_match (indent ++ s_dlogger ++ level ++ [c_lparen; c_dq] ++ message
              ++ [c_dq] ++ c_comma :: ws ++ (c :: a) ++ [c_rparen])
    = Some (mkMatch indent level message (Some (c :: a))).
Proof. intros. now apply re_match_args. Qed.

Lemma args_group_is_rest_witness :
  re_match (py "  " ++ s_dlogger ++ s_Warn ++ [c_lparen; c_dq] ++ py "msg"
            ++ [c_dq] ++ c_comma :: py "   " ++ py "f(x), g(y))" ++ [c_rparen])
  = Some (mkMatch (py "  ") s_Warn (py "msg") (Some (py "f(x), g(y))"))).
Proof.
  apply (args_group_is_rest (py "  ") s_Warn (py "msg") (py "   ") 102
                            (py "(x), g(y))")).
  - reflexivity.
  - right. right. right. left. reflexivity.
  - discriminate.
  - reflexivity.
  - reflexivity.
  - reflexivity.
  - reflexivity.
Defined.

(** ** X3 *)

(** X3: a call whose arguments are white space only, as in
    [d.logger.Info(Qm Q,  )] with Q for the double quote, is matched, with the
    last white space character as group 4, and is written as the call
    without fields: the comma and the white space are gone. *)
Theorem blank_args_dropped : forall indent level message ws c,
    forallb isspace indent = true -> In level levels ->
    message <> [] -> forallb not_dq message = true ->
    forallb isspace ws = true -> isspace c = true -> c <> c_nl ->
    re_match (indent ++ s_dlogger ++ level ++ [c_lparen; c_dq] ++ message
              ++ [c_dq] ++ c_comma :: ws ++ [c; c_rparen])
    = Some (mkMatch indent level message (Some [c]))
    /\ fix_line (indent ++ s_dlogger ++ level ++ [c_lparen; c_dq] ++ message
                 ++ [c_dq] ++ c_comma :: ws ++ [c; c_rparen])
       = Ok (indent ++ s_dlogger ++ level ++ py "(ctx, " ++ [c_dq] ++ message
             ++ [c_dq; c_rparen]).
Proof.
  intros indent level message ws c Hi Hl Hne Hq Hws Hc Hnl.
  assert (Hd : dot c = true).
  { unfold dot. apply negb_true_iff. now apply N.eqb_neq. }
  assert (Hm : re_match (indent ++ s_dlogger ++ level ++ [c_lparen; c_dq]
                         ++ message ++ [c_dq] ++ c_comma :: ws ++ [c; c_rparen])
               = Some (mkMatch indent level message (Some [c]))).
  { unfold re_match.
    erewrite run_pattern; [|assumption|assumption|].
    2:{ apply run_call; [assumption|assumption|].
        apply run_opt_blank; [assumption|assumption|assumption|]. reflexivity. }
    reflexivity. }
  split; [exact Hm|].
  unfold fix_line. rewrite Hm, convert_log_call_ok. unfold args_of.
  cbn [group1 group2 group3 group4].
  rewrite split_args_blank by assumption. reflexivity.
Qed.

Lemma blank_args_dropped_witness :
  re_match ([] ++ s_dlogger ++ s_Info ++ [c_lparen; c_dq] ++ py "m"
            ++ [c_dq] ++ c_comma :: py " " ++ [32; c_rparen])
  = Some (mkMatch [] s_Info (py "m") (Some [32]))
  /\ fix_line ([] ++ s_dlogger ++ s_Info ++ [c_lparen; c_dq] ++ py "m"
               ++ [c_dq] ++ c_comma :: py " " ++ [32; c_rparen])
     = Ok ([] ++ s_dlogger ++ s_Info ++ py "(ctx, " ++ [c_dq] ++ py "m"
           ++ [c_dq; c_rparen]).
Proof.
  apply (blank_args_dropped [] s_Info (py "m") (py " ") 32).
  - reflexivity.
  - left. reflexivity.
  - discriminate.
  - reflexivity.
  - reflexivity.
  - reflexivity.
  - discriminate.
Defined.

(** ** X4 *)

(** X4: the receiver is the literal [d].  A line that, after its leading
    white space, does not go on with [d.logger.] is not matched and is
    returned as it is. *)
Theorem other_receiver_unchanged : forall line,
    strip_prefix s_dlogger (dropwhile isspace line) = None ->
    re_match line = None /\ fix_line line = Ok line.
Proof.
  intros line H.
  assert (Hm : re_match line = None).
  { apply re_match_none. intros m (tail & eol & E & Hg1 & _).
    rewrite E, dropwhile_all in H by assumption.
    rewrite (dropwhile_id isspace (s_dlogger ++ _)) in H by reflexivity.
    rewrite strip_prefix_here in H. discriminate. }
  split; [exact Hm|]. unfold fix_line. now rewrite Hm.
Qed.

Lemma other_receiver_unchanged_witness :
  re_match (py "object.logger.Info(" ++ quoted "message" ++ py ")") = None
  /\ fix_line (py "object.logger.Info(" ++ quoted "message" ++ py ")")
     = Ok (py "object.logger.Info(" ++ quoted "message" ++ py ")").
Proof.
  apply (other_receiver_unchanged
           (py "object.logger.Info(" ++ quoted "message" ++ py ")")).
  reflexivity.
Defined.

(** ** X5 *)



(** ** X6 *)

(** X6: the splitter loses nothing but commas and white space: with these
    two left out, the parts put end to end read as the argument text does. *)
Theorem splitter_keeps_text : forall args,
    filter kept (concat (split_args args)) = filter kept args.
Proof.
  intros args. unfold split_args.
  rewrite split_finish_kept, split_scan_kept. reflexivity.
Qed.

(** ** X7 *)

(** X7: every part comes out stripped: none starts or ends with white
    space. *)
Theorem parts_are_stripped : forall args,
    Forall (fun p => strip isspace p = p) (split_args args).
Proof.
  intros args. unfold split_args, split_finish.
  assert (H : Forall (fun p => strip isspace p = p)
                     (parts (split_scan args split_init)))
    by (apply split_scan_stripped; constructor).
  destruct (nonempty (strip isspace (current (split_scan args split_init))));
    [|exact H].
  apply Forall_app. split; [exact H|].
  constructor; [apply strip_idem|constructor].
Qed.

(** ** X8 *)

(** X8: arguments that are plain (not empty, no white space, quote,
    parenthesis or comma in them), written with a comma and a space between
    them, split into exactly these arguments. *)
Theorem plain_arguments_round_trip : forall ts,
    forallb plain_token ts = true ->
    split_args (join s_comma_space ts) = ts.
Proof.
  intros [|t ts] H; [reflexivity|].
  unfold split_args, split_init.
  now rewrite (split_plain_tokens ts t [] [] None).
Qed.

Lemma plain_arguments_round_trip_witness :
  split_args (join s_comma_space [py "count"; py "n"; py "user.id"; py "uid"])
  = [py "count"; py "n"; py "user.id"; py "uid"].
Proof.
  apply (plain_arguments_round_trip
           [py "count"; py "n"; py "user.id"; py "uid"]).
  reflexivity.
Defined.

(** ** X9 *)

(** X9: a closing parenthesis met at depth zero or below switches the
    splitting off: of a text that goes on without quotes and parentheses
    nothing more is split, and all of it, commas included, ends up in one
    last part. *)
Theorem unmatched_close_stops_splitting : forall st w,
    in_quotes st = false -> (paren_depth st <= 0)%Z ->
    forallb flat_char w = true ->
    split_finish (split_scan (c_rparen :: w) st)
    = parts st ++ [strip isspace (current st ++ c_rparen :: w)].
Proof.
  intros st w Hq Hd Hw.
  rewrite split_scan_cons, split_step_rparen by assumption.
  rewrite scan_flat_nonzero by (try assumption; try reflexivity; simpl; lia).
  unfold split_finish. cbn [parts current]. rewrite <- app_assoc. cbn [app].
  rewrite (strip_nonempty isspace _ c_rparen); [reflexivity| |reflexivity].
  apply in_or_app. right. now left.
Qed.

Lemma unmatched_close_stops_splitting_witness :
  split_finish (split_scan (c_rparen :: py ", b, c")
                           (mkSplit [] (py "a") 0%Z false None))
  = [] ++ [strip isspace (py "a" ++ c_rparen :: py ", b, c")].
Proof.
  apply (unmatched_close_stops_splitting (mkSplit [] (py "a") 0%Z false None)
                                         (py ", b, c")).
  - reflexivity.
  - simpl. lia.
  - reflexivity.
Defined.

(** ** X10 *)

(** X10: a quote that is never closed takes the rest of the arguments: from
    the opening quote on nothing is split, and everything ends up in one last
    part. *)
Theorem unclosed_quote_takes_rest : forall st q w,
    in_quotes st = false -> is_quote q = true -> ~ In q w ->
    split_finish (split_scan (q :: w) st)
    = parts st ++ [strip isspace (current st ++ q :: w)].
Proof.
  intros st q w Hin Hq Hw.
  rewrite split_scan_cons.
  assert (Hopen : split_step st q
                  = mkSplit (parts st) (current st ++ [q]) (paren_depth st)
                            true (Some q)).
  { unfold split_step. rewrite Hin, Hq. reflexivity. }
  rewrite Hopen, (scan_quoted w _ q) by (try reflexivity; assumption).
  unfold split_finish. cbn [parts current]. rewrite <- app_assoc. cbn [app].
  rewrite (strip_nonempty isspace _ q); [reflexivity| |].
  - apply in_or_app. right. now left.
  - unfold is_quote in Hq. apply orb_prop in Hq.
    destruct Hq as [Hq|Hq]; apply N.eqb_eq in Hq; subst q; reflexivity.
Qed.

Lemma unclosed_quote_takes_rest_witness :
  split_finish (split_scan (c_dq :: py "a, b, c")
                           (mkSplit [py "k"] (py " ") 0%Z false None))
  = [py "k"] ++ [strip isspace (py " " ++ c_dq :: py "a, b, c")].
Proof.
  apply (unclosed_quote_takes_rest (mkSplit [py "k"] (py " ") 0%Z false None)
                                   c_dq (py "a, b, c")).
  - reflexivity.
  - reflexivity.
  - intros H. vm_compute in H. intuition discriminate.
Defined.

(** ** X11 *)

(** X11: the usual key.  A key part in double quotes whose text neither
    starts nor ends with a quote character gives that text as key. *)
Theorem quoted_key_unwrapped : forall w,
    is_quote (hd 0 w) = false -> is_quote (last w 0) = false ->
    strip_key (c_dq :: w ++ [c_dq]) = w.
Proof.
  intros w Hh Hl. destruct w as [|c w]; [reflexivity|].
  assert (Hq : forall x, is_quote x = false ->
                         in_set [c_dq] x = false /\ in_set [c_sq] x = false).
  { intros x Hx. unfold is_quote in Hx. apply orb_false_elim in Hx.
    destruct Hx as [H1 H2]. unfold in_set. simpl. now rewrite H1, H2. }
  cbn [hd] in Hh. destruct (Hq c Hh) as [Hcd Hcs].
  destruct (Hq _ Hl) as [Hld Hls].
  unfold strip_key.
  assert (H1 : strip (in_set [c_dq]) (c_dq :: (c :: w) ++ [c_dq]) = c :: w).
  { unfold strip, lstrip. cbn [dropwhile app].
    change (in_set [c_dq] c_dq) with true. cbv iota. rewrite Hcd.
    change (c :: w ++ [c_dq]) with ((c :: w) ++ [c_dq]).
    rewrite rstrip_snoc by reflexivity.
    apply (rstrip_keep _ _ 0); [discriminate|assumption]. }
  rewrite H1. unfold strip, lstrip. cbn [dropwhile]. rewrite Hcs.
  apply (rstrip_keep _ _ 0); [discriminate|assumption].
Qed.

Lemma quoted_key_unwrapped_witness :
  strip_key (c_dq :: py "request_id" ++ [c_dq]) = py "request_id".
Proof.
  apply (quoted_key_unwrapped (py "request_id")); reflexivity.
Defined.

(** ** X12 *)

(** X12: the lines written for a matched line.  With [n] pairs of parts the
    new call is one line when [n] is zero and [n + 2] lines otherwise, and
    every one of these lines starts with the indentation of the old line. *)
Theorem rewritten_call_lines : forall line m out,
    ~ In c_nl line -> re_match line = Some m -> convert_log_call m = Ok out ->
    length (split_lines out)
    = (let n := Nat.div2 (length (split_args (args_of m))) in
       if Nat.eqb n 0 then 1 else n + 2)%nat
    /\ forall l, In l (split_lines out) ->
                 firstn (length (group1 m)) l = group1 m.
Proof.
  intros line m out Hnl Hm Hout.
  rewrite convert_log_call_ok in Hout. injection Hout as <-.
  rewrite (matched_call_lines line m Hnl Hm).
  rewrite <- pair_fields_length.
  destruct (pair_fields (split_args (args_of m))) as [|f fields].
  - split; [reflexivity|].
    intros l [<-|[]]. now apply firstn_consumed.
  - split.
    + cbn [length Nat.eqb]. rewrite length_app, length_map. cbn [length]. lia.
    + intros l [<-|Hl]; [now apply firstn_consumed|].
      apply in_app_or in Hl. destruct Hl as [Hl|[<-|[]]].
      * apply in_map_iff in Hl. destruct Hl as (f' & <- & _).
        unfold field_line. now apply firstn_consumed.
      * now apply firstn_consumed.
Qed.

Lemma rewritten_call_lines_witness :
  length (split_lines
            ([c_tab] ++ py "d.logger.Error(ctx, " ++ quoted "failed" ++ py ","
             ++ [c_nl; c_tab; c_tab] ++ py "logging.Field{Key: " ++ quoted "err"
             ++ py ", Value: err}," ++ [c_nl; c_tab] ++ py ")"))
  = (let n := Nat.div2
                (length (split_args
                           (args_of (mkMatch [c_tab] s_Error (py "failed")
                                             (Some (quoted "err" ++ py ", err"))))))
     in if Nat.eqb n 0 then 1 else n + 2)%nat
  /\ forall l,
      In l (split_lines
              ([c_tab] ++ py "d.logger.Error(ctx, " ++ quoted "failed" ++ py ","
               ++ [c_nl; c_tab; c_tab] ++ py "logging.Field{Key: "
               ++ quoted "err" ++ py ", Value: err}," ++ [c_nl; c_tab]
               ++ py ")")) ->
      firstn (length (group1 (mkMatch [c_tab] s_Error (py "failed")
                                      (Some (quoted "err" ++ py ", err"))))) l
      = group1 (mkMatch [c_tab] s_Error (py "failed")
                        (Some (quoted "err" ++ py ", err"))).
Proof.
  apply (rewritten_call_lines line_error
           (mkMatch [c_tab] s_Error (py "failed")
                    (Some (quoted "err" ++ py ", err")))).
  - intros H. vm_compute in H. intuition discriminate.
  - reflexivity.
  - reflexivity.
Defined.

(** ** X13 *)

(** X13: lines are rewritten one by one.  The text written for two texts
    joined by a line feed is the two texts written, joined by a line feed;
    so a line feed at the end of the file stays, and none is added. *)
Theorem fix_file_line_by_line : forall a b out_a out_b,
    fix_file a = Ok out_a -> fix_file b = Ok out_b ->
    fix_file (a ++ c_nl :: b) = Ok (out_a ++ c_nl :: out_b).
Proof.
  intros a b out_a out_b Ha Hb.
  rewrite fix_file_ok in *. injection Ha as <-. injection Hb as <-.
  f_equal. rewrite split_lines_cat, map_app, join_app.
  - reflexivity.
  - pose proof (split_lines_nonempty a).
    destruct (split_lines a); [congruence|discriminate].
  - pose proof (split_lines_nonempty b).
    destruct (split_lines b); [congruence|discriminate].
Qed.

Lemma fix_file_line_by_line_witness :
  fix_file (line_error ++ c_nl :: [])
  = Ok (([c_tab] ++ py "d.logger.Error(ctx, " ++ quoted "failed" ++ py ","
         ++ [c_nl; c_tab; c_tab] ++ py "logging.Field{Key: " ++ quoted "err"
         ++ py ", Value: err}," ++ [c_nl; c_tab] ++ py ")") ++ c_nl :: []).
Proof.
  apply (fix_file_line_by_line line_error []); reflexivity.
Defined.

(** ** X14 *)

(** X14: only the four levels are rewritten.  A line that, after white space
    and [d.logger.], does not go on with Info, Debug, Error or Warn and an
    opening parenthesis is not matched and is returned as it is. *)
Theorem other_level_unchanged : forall indent rest,
    forallb isspace indent = true ->
    (forall level, In level levels ->
                   strip_prefix (level ++ [c_lparen]) rest = None) ->
    re_match (indent ++ s_dlogger ++ rest) = None
    /\ fix_line (indent ++ s_dlogger ++ rest) = Ok (indent ++ s_dlogger ++ rest).
Proof.
  intros indent rest Hi Hrest.
  assert (Hm : re_match (indent ++ s_dlogger ++ rest) = None).
  { apply re_match_none. intros m (tail & eol & E & Hg1 & Hg2 & _).
    unfold s_dlogger in E. cbn [app] in E.
    apply ws_prefix_unique in E; try assumption; try reflexivity.
    destruct E as (_ & _ & E). injection E as E.
    specialize (Hrest (group2 m) Hg2). rewrite E in Hrest.
    cbn [app] in Hrest. rewrite strip_prefix_snoc in Hrest. discriminate. }
  split; [exact Hm|]. unfold fix_line. now rewrite Hm.
Qed.

Lemma other_level_unchanged_witness :
  re_match ([c_tab] ++ s_dlogger ++ py "Fatal(" ++ quoted "x" ++ py ")") = None
  /\ fix_line ([c_tab] ++ s_dlogger ++ py "Fatal(" ++ quoted "x" ++ py ")")
     = Ok ([c_tab] ++ s_dlogger ++ py "Fatal(" ++ quoted "x" ++ py ")").
Proof.
  apply (other_level_unchanged [c_tab] (py "Fatal(" ++ quoted "x" ++ py ")")).
  - reflexivity.
  - intros level H. unfold levels in H. simpl in H.
    destruct H as [<-|[<-|[<-|[<-|[]]]]]; reflexivity.
Defined.

(** ** X15 *)

(** X15: the message has to be the whole first argument.  When the closing
    quote of the message is followed by anything but a comma or a closing
    parenthesis (a concatenation, a quote escaped with a backslash), the line
    is not matched and is returned as it is. *)
Theorem message_not_alone_unchanged : forall indent level message c rest,
    forallb isspace indent = true -> In level levels ->
    forallb not_dq message = true ->
    c <> c_comma -> c <> c_rparen ->
    re_match (indent ++ s_dlogger ++ level ++ [c_lparen; c_dq] ++ message
              ++ c_dq :: c :: rest) = None
    /\ fix_line (indent ++ s_dlogger ++ level ++ [c_lparen; c_dq] ++ message
                 ++ c_dq :: c :: rest)
       = Ok (indent ++ s_dlogger ++ level ++ [c_lparen; c_dq] ++ message
             ++ c_dq :: c :: rest).
Proof.
  intros indent level message c rest Hi Hl Hq Hc1 Hc2.
  assert (Hm : re_match (indent ++ s_dlogger ++ level ++ [c_lparen; c_dq]
                         ++ message ++ c_dq :: c :: rest) = None).
  { apply re_match_none.
    intros m (tail & eol & E & Hg1 & Hg2 & _ & Hq' & _ & Ha).
    unfold s_dlogger in E. cbn [app] in E.
    apply ws_prefix_unique in E; try assumption; try reflexivity.
    destruct E as (_ & _ & E). injection E as E.
    apply level_unique in E; try assumption. destruct E as [_ E].
    injection E as E.
    apply (run_unique not_dq) in E; try assumption; try reflexivity.
    destruct E as (_ & _ & E).
    destruct (group4 m) as [a|].
    - destruct Ha as (ws & -> & _). cbn [app] in E. injection E as E _.
      congruence.
    - subst tail. cbn [app] in E. injection E as E _. congruence. }
  split; [exact Hm|]. unfold fix_line. now rewrite Hm.
Qed.

Lemma message_not_alone_unchanged_witness :
  re_match ([] ++ s_dlogger ++ s_Info ++ [c_lparen; c_dq] ++ py "id="
            ++ c_dq :: 32 :: py "+ id)") = None
  /\ fix_line ([] ++ s_dlogger ++ s_Info ++ [c_lparen; c_dq] ++ py "id="
               ++ c_dq :: 32 :: py "+ id)")
     = Ok ([] ++ s_dlogger ++ s_Info ++ [c_lparen; c_dq] ++ py "id="
           ++ c_dq :: 32 :: py "+ id)").
Proof.
  apply (message_not_alone_unchanged [] s_Info (py "id=") 32 (py "+ id)")).
  - reflexivity.
  - left. reflexivity.
  - reflexivity.
  - discriminate.
  - discriminate.
Defined.

(** ** X16 *)

(** X16: no line gets lost: the text written has at least as many lines as
    the text read. *)
Theorem fix_file_keeps_lines : forall content out,
    fix_file content = Ok out ->
    (length (split_lines content) <= length (split_lines out))%nat.
Proof.
  intros content out H. rewrite fix_file_ok in H. injection H as <-.
  rewrite split_lines_join.
  2:{ pose proof (split_lines_nonempty content).
      destruct (split_lines content); [congruence|discriminate]. }
  rewrite <- (length_map new_line (split_lines content)) at 1.
  rewrite <- (length_map split_lines (map new_line (split_lines content))) at 1.
  apply concat_length_ge.
  intros l Hl. apply in_map_iff in Hl. destruct Hl as (x & <- & _).
  apply split_lines_nonempty.
Qed.

Lemma fix_file_keeps_lines_witness :
  (length (split_lines content_example)
   <= length (split_lines content_example_out))%nat.
Proof.
  apply (fix_file_keeps_lines content_example content_example_out).
  reflexivity.
Defined.
